(** * Movies-website: the movie query adapter and the search telemetry store

    A shallow embedding of [src/App.jsx] ([fetchMovies]) and of
    [src/appwrite.js] ([updateSearchCount], [getTrendingMovies]).

    Conventions of the embedding.
    - A JavaScript string is the list of its UTF-16 code units ([JsString]);
      ASCII literals of the source are written [js "..."].
    - A JavaScript exception is an explicit [Throw] completion; an [async]
      function that rejects is a computation that ends in [Throw].
    - Everything outside the program (the React state cells, the browser
      console, the HTTP transport, the remote document collection) lives in
      one [World]; what the outside decides (transport replies, store
      faults, generated identifiers) is read from an [Env].
    - [count] and [movie.id] are JavaScript numbers with an integer value,
      written as the integer in [Z]. Sums are taken as JavaScript takes
      them: [number_add] is the double nearest to the exact sum, ties to the
      even significand. Counts come from an integer attribute of the store,
      far below 2^1024, so the model has no largest double. *)

From Stdlib Require Import List ZArith NArith Bool Ascii String Lia Sorting.Sorted Permutation.
Import ListNotations.

Set Implicit Arguments.

(** ** JavaScript values used by the program *)

Module JS.

Definition JsString := list N.

Definition js (s : string) : JsString :=
  map N_of_ascii (list_ascii_of_string s).

Fixpoint eqb (a b : JsString) : bool :=
  match a, b with
  | [], [] => true
  | x :: a', y :: b' => N.eqb x y && eqb a' b'
  | _, _ => false
  end.

(** Truthiness of a string: only the empty string is falsy. *)
Definition truthy (s : JsString) : bool :=
  match s with [] => false | _ :: _ => true end.

(** [a || b] on strings that may be [undefined]. *)
Definition or_else (a : option JsString) (b : JsString) : JsString :=
  match a with
  | Some s => if truthy s then s else b
  | None => b
  end.

(** [v === s] for a string literal [s] and a value that may not be a
    string at all. *)
Definition strict_equal (v : option JsString) (s : JsString) : bool :=
  match v with
  | Some x => eqb x s
  | None => false
  end.

(** Template-literal conversion of a nullable string field:
    [`${null}`] is the text [null]. *)
Definition to_string (v : option JsString) : JsString :=
  match v with
  | Some s => s
  | None => js "null"
  end.

Record JsError := mkError { name : JsString; message : JsString }.

(** [Error.prototype.toString]. *)
Definition error_to_string (e : JsError) : JsString :=
  match name e, message e with
  | [], m => m
  | n, [] => n
  | n, m => n ++ js ": " ++ m
  end.

Inductive Completion (A : Type) : Type :=
| Normal (a : A)
| Throw (e : JsError).
Arguments Throw {A} e.

(** *** Numbers

    A double has a 53-bit significand: every integer up to 2^53 in
    magnitude is one, and beyond that only the multiples of the power of
    two that leaves 53 bits. *)

(** [a], at least 2^53, rounded to a multiple of [2^e]: to the nearest one,
    and of two equally near ones to the one with the even quotient. *)
Definition round_at (e a : Z) : Z :=
  (let q := a / 2 ^ e in
   let r := a mod 2 ^ e in
   let half := 2 ^ (e - 1) in
   (if r <? half then q
    else if half <? r then q + 1
    else if Z.even q then q else q + 1) * 2 ^ e)%Z.

Definition round_magnitude (a : Z) : Z :=
  (if a <? 2 ^ 53 then a else round_at (Z.log2 a - 52) a)%Z.

(** The double nearest to an integer. *)
Definition nearest_double (n : Z) : Z :=
  (if n <? 0 then - round_magnitude (- n) else round_magnitude n)%Z.

(** [a + b] on numbers. *)
Definition number_add (a b : Z) : Z := nearest_double (a + b).

(** *** [encodeURI] (ECMAScript Encode with the reserved, unescaped and
    [#] characters left as they are) *)

Local Open Scope N_scope.

Definition in_range (lo hi c : N) : bool := (lo <=? c) && (c <=? hi).

Definition uriReserved : JsString := js ";/?:@&=+$,".
Definition uriMark : JsString := js "-_.!~*'()".

Definition mem (c : N) (s : JsString) : bool := existsb (N.eqb c) s.

Definition unescaped (c : N) : bool :=
  in_range 97 122 c || in_range 65 90 c || in_range 48 57 c
  || mem c uriMark || mem c uriReserved || N.eqb c 35.

Definition is_leading_surrogate (c : N) : bool := in_range 55296 56319 c.
Definition is_trailing_surrogate (c : N) : bool := in_range 56320 57343 c.

Definition hex_digit (d : N) : N :=
  if (d <? 10) then 48 + d else 55 + d.

(** One octet as [%XX], upper-case hexadecimal. *)
Definition pct (b : N) : JsString :=
  [37; hex_digit (b / 16); hex_digit (b mod 16)].

Definition utf8 (cp : N) : list N :=
  if (cp <? 128) then [cp]
  else if (cp <? 2048) then
    [192 + cp / 64; 128 + cp mod 64]
  else if (cp <? 65536) then
    [224 + cp / 4096; 128 + (cp / 64) mod 64; 128 + cp mod 64]
  else
    [240 + cp / 262144; 128 + (cp / 4096) mod 64;
     128 + (cp / 64) mod 64; 128 + cp mod 64].

Definition escape (cp : N) : JsString := flat_map pct (utf8 cp).

Definition URIError : JsError := mkError (js "URIError") (js "URI malformed").

Definition cons_to (pre : JsString) (r : Completion JsString) : Completion JsString :=
  match r with
  | Normal s => Normal (pre ++ s)
  | Throw e => Throw e
  end.

Fixpoint encodeURI (s : JsString) : Completion JsString :=
  match s with
  | [] => Normal []
  | c :: rest =>
      if unescaped c then cons_to [c] (encodeURI rest)
      else if is_leading_surrogate c then
        match rest with
        | d :: rest' =>
            if is_trailing_surrogate d
            then cons_to (escape ((c - 55296) * 1024 + (d - 56320) + 65536))
                         (encodeURI rest')
            else Throw URIError
        | [] => Throw URIError
        end
      else if is_trailing_surrogate c then Throw URIError
      else cons_to (escape c) (encodeURI rest)
  end.

(** A string no [encodeURI] call rejects: every surrogate is paired. *)
Fixpoint well_formed (s : JsString) : bool :=
  match s with
  | [] => true
  | c :: rest =>
      if is_leading_surrogate c then
        match rest with
        | d :: rest' => is_trailing_surrogate d && well_formed rest'
        | [] => false
        end
      else negb (is_trailing_surrogate c) && well_formed rest
  end.

End JS.
Import JS.

(** ** The movie metadata service (TMDB) as the program sees it *)

Module TMDB.

(** A movie object of a [results] list. [poster_path] is [null] for a movie
    without a poster. *)
Record Movie := mkMovie {
  id : Z;
  title : JsString;
  poster_path : option JsString }.

(** The parsed JSON body, an object. [response] is the field's text, and
    [None] when the field is missing or is not a string (such a value is
    never [=== 'False']). [Error] is the field's text, and [None] when the
    field is missing or [null]; the service sends its messages as text, and
    a body whose [Error] is anything else is outside this type. [results]
    is [None] when the field is missing. *)
Record Data := mkData {
  response : option JsString;
  Error : option JsString;
  results : option (list Movie) }.

Inductive Body :=
| BadJson (e : JsError)          (* [response.json()] rejects *)
| Json (data : Data).

(** [ok] is [response.ok]: the status is in the range 200-299. The body is
    read by [response.json()] only. *)
Record Response := mkResponse { ok : bool; body : Body }.

Inductive FetchOutcome :=
| Rejects (e : JsError)          (* the [fetch] promise rejects *)
| Responds (r : Response).

End TMDB.
Import TMDB.

(** ** The document store (Appwrite) *)

Module Appwrite.

Record Document := mkDocument {
  dollar_id : JsString;          (* [$id], assigned at creation *)
  searchTerm : JsString;
  count : Z;
  movie_id : Z;
  poster_url : JsString }.

Inductive Value :=
| VNull
| VNumber (n : Z)
| VString (s : JsString).

Inductive Query :=
| equal (attribute : JsString) (value : Value)
| limit (n : nat)
| orderDesc (attribute : JsString).

Record DocumentList := mkDocumentList {
  total : nat;
  documents : list Document }.

(** The data object of [createDocument]. *)
Record NewDocument := mkNew {
  new_searchTerm : JsString;
  new_count : Z;
  new_movie_id : Z;
  new_poster_url : JsString }.

(** The data object of [updateDocument]: the attributes it names. *)
Record Patch := mkPatch {
  set_searchTerm : option JsString;
  set_count : option Z;
  set_movie_id : option Z;
  set_poster_url : option JsString }.

Definition attribute_of (d : Document) (a : JsString) : Value :=
  if JS.eqb a (js "$id") then VString (dollar_id d)
  else if JS.eqb a (js "searchTerm") then VString (searchTerm d)
  else if JS.eqb a (js "count") then VNumber (count d)
  else if JS.eqb a (js "movie_id") then VNumber (movie_id d)
  else if JS.eqb a (js "poster_url") then VString (poster_url d)
  else VNull.

Definition value_eqb (a b : Value) : bool :=
  match a, b with
  | VNull, VNull => true
  | VNumber x, VNumber y => Z.eqb x y
  | VString x, VString y => JS.eqb x y
  | _, _ => false
  end.

Fixpoint string_leb (a b : JsString) : bool :=
  match a, b with
  | [], _ => true
  | _ :: _, [] => false
  | x :: a', y :: b' => N.ltb x y || (N.eqb x y && string_leb a' b')
  end.

Definition value_leb (a b : Value) : bool :=
  match a, b with
  | VNull, _ => true
  | VNumber _, VNull => false
  | VNumber x, VNumber y => Z.leb x y
  | VNumber _, VString _ => true
  | VString x, VString y => string_leb x y
  | VString _, _ => false
  end.

Definition matches (qs : list Query) (d : Document) : bool :=
  forallb (fun q => match q with
                    | equal a v => value_eqb (attribute_of d a) v
                    | _ => true
                    end) qs.

(** Stable insertion: [x] goes before the first element it does not rank
    below, so equal keys keep the collection's order. *)
Fixpoint insert_desc (a : JsString) (x : Document) (l : list Document) : list Document :=
  match l with
  | [] => [x]
  | y :: l' =>
      if value_leb (attribute_of y a) (attribute_of x a)
      then x :: y :: l'
      else y :: insert_desc a x l'
  end.

Definition sort_desc (a : JsString) (l : list Document) : list Document :=
  fold_right (insert_desc a) [] l.

Definition ordered (qs : list Query) (l : list Document) : list Document :=
  fold_right (fun q acc => match q with
                           | orderDesc a => sort_desc a acc
                           | _ => acc
                           end) l qs.

Definition default_limit : nat := 25.

Fixpoint limit_of (qs : list Query) : nat :=
  match qs with
  | [] => default_limit
  | limit n :: _ => n
  | _ :: qs' => limit_of qs'
  end.

(** Modelled from the spec: the remote collection behind [listDocuments],
    which is not part of the repository. The spec (section 6) gives it
    equality filters, descending sort and result-count limits, and breaks
    ties by the store's insertion order (section 4.2). *)
Definition select (qs : list Query) (docs : list Document) : DocumentList :=
  let hits := filter (matches qs) docs in
  mkDocumentList (List.length hits) (firstn (limit_of qs) (ordered qs hits)).

Definition has_id (i : JsString) (d : Document) : bool := JS.eqb (dollar_id d) i.

Definition apply (p : Patch) (d : Document) : Document :=
  mkDocument (dollar_id d)
             (match set_searchTerm p with Some v => v | None => searchTerm d end)
             (match set_count p with Some v => v | None => count d end)
             (match set_movie_id p with Some v => v | None => movie_id d end)
             (match set_poster_url p with Some v => v | None => poster_url d end).

Definition not_found : JsError :=
  mkError (js "AppwriteException") (js "Document with the requested ID could not be found.").

Definition conflict : JsError :=
  mkError (js "AppwriteException") (js "Document with the requested ID already exists.").

(** Modelled from the spec: the remote [updateDocument], which is not part
    of the repository. It rewrites the named attributes of the document
    with the given identifier and rejects an unknown identifier. *)
Definition update (i : JsString) (p : Patch) (docs : list Document)
  : Completion Document * list Document :=
  match find (has_id i) docs with
  | Some d => (Normal (apply p d),
               map (fun x => if has_id i x then apply p x else x) docs)
  | None => (Throw not_found, docs)
  end.

(** Modelled from the spec: the remote [createDocument], which is not part
    of the repository. It appends a document under the given identifier
    (documents have a store-assigned unique identifier, section 6) and
    rejects an identifier that is taken. *)
Definition create (i : JsString) (n : NewDocument) (docs : list Document)
  : Completion Document * list Document :=
  let d := mkDocument i (new_searchTerm n) (new_count n) (new_movie_id n) (new_poster_url n) in
  if existsb (has_id i) docs then (Throw conflict, docs)
  else (Normal d, docs ++ [d]).

End Appwrite.
Import Appwrite.

(** ** The world around the program *)

Inductive LogEntry :=
| console_log_error (e : JsError)      (* [console.log(error)] *)
| console_log_text (s : JsString)      (* [console.log(`...`)] *)
| console_error_error (e : JsError).   (* [console.error(error)] *)

Record World := mkWorld {
  moviesList : list Movie;             (* React state of [App] *)
  errorMessage : JsString;
  isLoading : bool;
  collection : list Document;          (* the remote collection, oldest first *)
  console : list LogEntry;
  requests : list JsString;            (* URLs handed to [fetch], oldest first *)
  clock : nat }.                       (* remote calls issued so far *)

(** What the outside decides, indexed by the number of the remote call. *)
Record Env := mkEnv {
  transport : nat -> JsString -> FetchOutcome;
  store_fault : nat -> option JsError;
  unique : nat -> JsString }.

Definition M (A : Type) : Type := World -> Completion A * World.

Definition ret {A} (a : A) : M A := fun w => (Normal a, w).

Definition throw {A} (e : JsError) : M A := fun w => (Throw e, w).

Definition bind {A B} (m : M A) (k : A -> M B) : M B :=
  fun w => match m w with
           | (Normal a, w') => k a w'
           | (Throw e, w') => (Throw e, w')
           end.

Declare Scope js_scope.
Delimit Scope js_scope with js.
Notation "x <- c ;; k" := (bind c (fun x => k))
  (at level 61, c at next level, right associativity) : js_scope.
Notation "c ;; k" := (bind c (fun _ => k))
  (at level 61, right associativity) : js_scope.
Local Open Scope js_scope.

(** [try { body } catch (error) { handler }]: the effects of [body] up to
    the throw stay. *)
Definition try_catch {A} (body : M A) (handler : JsError -> M A) : M A :=
  fun w => match body w with
           | (Normal a, w') => (Normal a, w')
           | (Throw e, w') => handler e w'
           end.

(** [try { body } finally { fin }]. *)
Definition try_finally {A} (body : M A) (fin : M unit) : M A :=
  fun w => match body w with
           | (c, w') => match fin w' with
                        | (Normal _, w'') => (c, w'')
                        | (Throw e, w'') => (Throw e, w'')
                        end
           end.

Definition lift {A} (c : Completion A) : M A := fun w => (c, w).

(** ** State setters, console and remote calls *)

Definition setMoviesList (l : list Movie) : M unit :=
  fun w => (Normal tt,
            mkWorld l (errorMessage w) (isLoading w) (collection w)
                    (console w) (requests w) (clock w)).

Definition setErrorMessage (s : JsString) : M unit :=
  fun w => (Normal tt,
            mkWorld (moviesList w) s (isLoading w) (collection w)
                    (console w) (requests w) (clock w)).

Definition setIsLoading (b : bool) : M unit :=
  fun w => (Normal tt,
            mkWorld (moviesList w) (errorMessage w) b (collection w)
                    (console w) (requests w) (clock w)).

Definition print (e : LogEntry) : M unit :=
  fun w => (Normal tt,
            mkWorld (moviesList w) (errorMessage w) (isLoading w) (collection w)
                    (console w ++ [e]) (requests w) (clock w)).

Section Program.

Variable env : Env.

(** [await fetch(endpoint, API_OPTIONS)]: the options are a constant of the
    program, the request is recorded by its URL. *)
Definition fetch (endpoint : JsString) : M Response :=
  fun w =>
    let w' := mkWorld (moviesList w) (errorMessage w) (isLoading w) (collection w)
                      (console w) (requests w ++ [endpoint]) (S (clock w)) in
    match transport env (clock w) endpoint with
    | Rejects e => (Throw e, w')
    | Responds r => (Normal r, w')
    end.

(** [await response.json()]. *)
Definition json (r : Response) : M Data :=
  match body r with
  | BadJson e => throw e
  | Json d => ret d
  end.

(** One request to the document store: it may fail as a whole
    ([store_fault]), and then the collection is as it was. *)
Definition request {A} (op : list Document -> Completion A * list Document) : M A :=
  fun w =>
    match store_fault env (clock w) with
    | Some e =>
        (Throw e,
         mkWorld (moviesList w) (errorMessage w) (isLoading w) (collection w)
                 (console w) (requests w) (S (clock w)))
    | None =>
        let (r, docs) := op (collection w) in
        (r,
         mkWorld (moviesList w) (errorMessage w) (isLoading w) docs
                 (console w) (requests w) (S (clock w)))
    end.

Definition listDocuments (queries : list Query) : M DocumentList :=
  request (fun docs => (Normal (select queries docs), docs)).

Definition updateDocument (i : JsString) (p : Patch) : M Document :=
  request (update i p).

Definition createDocument (i : JsString) (n : NewDocument) : M Document :=
  request (create i n).

(** [ID.unique()]. *)
Definition ID_unique : M JsString :=
  fun w => (Normal (unique env (clock w)), w).

(** ** src/appwrite.js *)

Definition poster_template : JsString := js "https://image.tmdb.org/t/p/w500".

Definition updateSearchCount (searchTerm : JsString) (movie : Movie) : M unit :=
  try_catch
    (result <- listDocuments [equal (js "searchTerm") (VString searchTerm)] ;;
     match documents result with
     | doc :: _ =>
         updateDocument (dollar_id doc)
                        (mkPatch None (Some (number_add (count doc) 1)) None None) ;;
         ret tt
     | [] =>
         i <- ID_unique ;;
         createDocument i
           (mkNew searchTerm 1 (id movie)
                  (poster_template ++ to_string (poster_path movie))) ;;
         ret tt
     end)
    (fun error => print (console_log_error error)).

(** What the [async] function resolves to: a document array, or
    [undefined] when the body ends without a [return]. *)
Inductive Trending :=
| undefined
| array (docs : list Document).

Definition getTrendingMovies : M Trending :=
  try_catch
    (result <- listDocuments [limit 5; orderDesc (js "count")] ;;
     ret (array (documents result)))
    (fun error => print (console_error_error error) ;; ret undefined).

(** ** src/App.jsx *)

Definition API_BASE_URL : JsString := js "https://api.themoviedb.org/3".

Definition search_prefix : JsString := API_BASE_URL ++ js "/search/movie?query=".

Definition discover_url : JsString :=
  API_BASE_URL ++ js "/discover/movie?sort_by=popularity.desc".

(** The [endpoint] expression of [fetchMovies]. *)
Definition endpoint_of (query : JsString) : Completion JsString :=
  if truthy query
  then cons_to search_prefix (encodeURI query)
  else Normal discover_url.

Definition failed_to_fetch : JsError :=
  mkError (js "Error") (js "Failed to fetch movies").

Definition length_of_undefined : JsError :=
  mkError (js "TypeError")
          (js "Cannot read properties of undefined (reading 'length')").

Definition try_again_later : JsString :=
  js "Error fetching movies. Please try again later.".

(** [fetchMovies(query = '')]: [None] is the absent argument. The [return]
    of the [response === 'False'] branch leaves the [try] block, so the
    rest of the block is the other branch; [finally] runs on every path. *)
Definition fetchMovies (arg : option JsString) : M unit :=
  let query := match arg with Some q => q | None => js "" end in
  setIsLoading true ;;
  setErrorMessage (js "") ;;
  try_finally
    (try_catch
       (endpoint <- lift (endpoint_of query) ;;
        response <- fetch endpoint ;;
        if negb (ok response) then throw failed_to_fetch
        else
          data <- json response ;;
          if strict_equal (TMDB.response data) (js "False")
          then
            setErrorMessage (or_else (Error data) (js "Failed to fetch movies")) ;;
            setMoviesList []
          else
            setMoviesList (match results data with Some l => l | None => [] end) ;;
            if truthy query then
              match results data with
              | None => throw length_of_undefined
              | Some [] => ret tt
              | Some (first :: _) => updateSearchCount query first
              end
            else ret tt)
       (fun error =>
          print (console_log_text (js "Error fetching movies: " ++ error_to_string error)) ;;
          setErrorMessage try_again_later))
    (setIsLoading false).

(** Searches recorded one after the other, each awaited before the next. *)
Fixpoint recordSearches (searches : list (JsString * Movie)) : M unit :=
  match searches with
  | [] => ret tt
  | (term, movie) :: rest =>
      updateSearchCount term movie ;; recordSearches rest
  end.

End Program.

(** ** Vocabulary of the specification *)

(** The records of a search term, in the collection's order. *)
Definition records_for (term : JsString) (docs : list Document) : list Document :=
  filter (fun d => JS.eqb (searchTerm d) term) docs.

(** The invariant of the data model: at most one record per search term. *)
Definition one_record_per_term (docs : list Document) : Prop :=
  NoDup (map searchTerm docs).

(** The store's own invariant: identifiers are unique. *)
Definition distinct_ids (docs : list Document) : Prop :=
  NoDup (map dollar_id docs).

(** A record with its counter one higher and nothing else changed. *)
Definition incremented (d : Document) : Document :=
  mkDocument (dollar_id d) (searchTerm d) (count d + 1) (movie_id d) (poster_url d).

(** Everything of a record but its counter. *)
Definition frame (d : Document) : JsString * JsString * Z * JsString :=
  (dollar_id d, searchTerm d, movie_id d, poster_url d).

(** The three ways the request of [fetchMovies] goes wrong before a body
    is parsed: the promise rejects, the status is not a success, the body
    is not JSON. *)
Definition fetch_fails (o : FetchOutcome) : bool :=
  match o with
  | Rejects _ => true
  | Responds r =>
      negb (ok r) || match body r with BadJson _ => true | Json _ => false end
  end.

(** The data object of the update: [{ count: doc.count + 1 }]. *)
Definition count_patch (d : Document) : Patch :=
  mkPatch None (Some (number_add (count d) 1)) None None.

(** The record [updateSearchCount] creates in world [w]. *)
Definition first_record (env : Env) (w : World) (term : JsString) (movie : Movie) : Document :=
  mkDocument (unique env (S (clock w))) term 1 (id movie)
             (poster_template ++ to_string (poster_path movie)).

(** The default parameter [query = '']. *)
Definition query_of (arg : option JsString) : JsString :=
  match arg with Some q => q | None => js "" end.

(** The error the [catch] block of [fetchMovies] receives from a request
    that fails. *)
Definition failure_of (o : FetchOutcome) : JsError :=
  match o with
  | Rejects e => e
  | Responds r =>
      if negb (ok r) then failed_to_fetch
      else match body r with BadJson e => e | Json _ => failed_to_fetch end
  end.

(** The console line of the [catch] block of [fetchMovies]. *)
Definition caught (e : JsError) : LogEntry :=
  console_log_text (js "Error fetching movies: " ++ error_to_string e).

(** The world in which [fetchMovies] calls [updateSearchCount]. *)
Definition listed (w : World) (url : JsString) (l : list Movie) : World :=
  mkWorld l (js "") true (collection w) (console w) (requests w ++ [url]) (S (clock w)).

(** Descending order of count: [a] may come before [b]. *)
Definition ranks_before (a b : Document) : Prop := (count b <= count a)%Z.

(** Integers in descending order, equal ones in their given order. *)
Fixpoint insert_descZ (x : Z) (l : list Z) : list Z :=
  match l with
  | [] => [x]
  | y :: l' => if (y <=? x)%Z then x :: y :: l' else y :: insert_descZ x l'
  end.

Definition sort_descZ (l : list Z) : list Z := fold_right insert_descZ [] l.

(** ** Sample data *)

Definition dune : Movie := mkMovie 438631 (js "Dune") (Some (js "/d5NXSklXo0qyIYkgV94XAgMIckC.jpg")).

Definition the_world : World := mkWorld [] (js "") false [] [] [] 0.

Definition offline : JsError := mkError (js "TypeError") (js "Failed to fetch").

Definition unavailable : JsError :=
  mkError (js "AppwriteException") (js "Service unavailable").

(** A quiet environment: the transport is down, the store answers, and the
    n-th identifier is n letters long. *)
Definition quiet : Env :=
  mkEnv (fun _ _ => Rejects offline) (fun _ => None) (fun n => repeat 97%N n).

(** The store is down. *)
Definition store_down : Env :=
  mkEnv (fun _ _ => Rejects offline) (fun _ => Some unavailable) (fun n => repeat 97%N n).

(** The transport answers every request with the given response. *)
Definition answering (r : Response) : Env :=
  mkEnv (fun _ _ => Responds r) (fun _ => None) (fun n => repeat 97%N n).

Definition doc_with (i : JsString) (c : Z) : Document :=
  mkDocument i (js "term-" ++ i) c 1 (js "/p.jpg").

Definition six_records : list Document :=
  [doc_with (js "a") 3; doc_with (js "b") 1; doc_with (js "c") 5;
   doc_with (js "d") 2; doc_with (js "e") 4; doc_with (js "f") 0].

Definition dune_record : Document :=
  mkDocument (js "doc-1") (js "dune") 7 438631
             (js "https://image.tmdb.org/t/p/w500/d5NXSklXo0qyIYkgV94XAgMIckC.jpg").

(** A world whose collection holds the given records. *)
Definition tracking (docs : list Document) : World :=
  mkWorld [] (js "") false docs [] [] 0.

(** A world whose list shows the given movies. *)
Definition showing (l : list Movie) : World :=
  mkWorld l (js "") false [] [] [] 0.

(** ** The rest of [App]: the first [fetchMovies], the trending loader and
    the two sections of the page *)

(** The state cells of [App] that [fetchMovies] does not touch, around the
    world. [trendingMovies] holds whatever [getTrendingMovies] resolved to.
    [error_lines] are the lines the [catch] block of [loadTrendingMovies]
    writes with [console.error]. *)
Record App := mkApp {
  world : World;
  trendingMovies : Trending;
  isTrendingLoading : bool;
  trendingError : JsString;
  error_lines : list JsString }.

Definition MA (A : Type) : Type := App -> Completion A * App.

Definition retA {A} (a : A) : MA A := fun s => (Normal a, s).

Definition bindA {A B} (m : MA A) (k : A -> MA B) : MA B :=
  fun s => match m s with
           | (Normal a, s') => k a s'
           | (Throw e, s') => (Throw e, s')
           end.

Declare Scope app_scope.
Delimit Scope app_scope with app.
Notation "x <- c ;; k" := (bindA c (fun x => k))
  (at level 61, c at next level, right associativity) : app_scope.
Notation "c ;; k" := (bindA c (fun _ => k))
  (at level 61, right associativity) : app_scope.

Definition try_catchA {A} (body : MA A) (handler : JsError -> MA A) : MA A :=
  fun s => match body s with
           | (Normal a, s') => (Normal a, s')
           | (Throw e, s') => handler e s'
           end.

Definition try_finallyA {A} (body : MA A) (fin : MA unit) : MA A :=
  fun s => match body s with
           | (c, s') => match fin s' with
                        | (Normal _, s'') => (c, s'')
                        | (Throw e, s'') => (Throw e, s'')
                        end
           end.

(** A computation on the world, run inside [App]. *)
Definition in_world {A} (m : M A) : MA A :=
  fun s => match m (world s) with
           | (c, w') =>
               (c, mkApp w' (trendingMovies s) (isTrendingLoading s)
                         (trendingError s) (error_lines s))
           end.

Definition setTrendingMovies (v : Trending) : MA unit :=
  fun s => (Normal tt,
            mkApp (world s) v (isTrendingLoading s) (trendingError s) (error_lines s)).

Definition setIsTrendingLoading (b : bool) : MA unit :=
  fun s => (Normal tt,
            mkApp (world s) (trendingMovies s) b (trendingError s) (error_lines s)).

Definition setTrendingError (m : JsString) : MA unit :=
  fun s => (Normal tt,
            mkApp (world s) (trendingMovies s) (isTrendingLoading s) m (error_lines s)).

Definition console_error_line (l : JsString) : MA unit :=
  fun s => (Normal tt,
            mkApp (world s) (trendingMovies s) (isTrendingLoading s) (trendingError s)
                  (error_lines s ++ [l])).

Definition failed_to_load : JsString := js "Failed to load trending movies.".

Section Loader.

Variable env : Env.

(** [loadTrendingMovies] of src/App.jsx. *)
Definition loadTrendingMovies : MA unit :=
  (setIsTrendingLoading true ;;
   setTrendingError (js "") ;;
   try_finallyA
     (try_catchA
        (movies <- in_world (getTrendingMovies env) ;;
         setTrendingMovies movies)
        (fun error =>
           console_error_line
             (js "Error fetching trending movies: " ++ error_to_string error) ;;
           setTrendingError failed_to_load))
     (setIsTrendingLoading false))%app.

(** The [fetchMovies] of the first [App]: no query, no telemetry. *)
Definition fetchMovies_v1 : M unit :=
  setIsLoading true ;;
  setErrorMessage (js "") ;;
  try_finally
    (try_catch
       (response <- fetch env (API_BASE_URL ++ js "/discover/movie?sort_by=popularity.desc") ;;
        if negb (ok response) then throw failed_to_fetch
        else
          data <- json response ;;
          if strict_equal (TMDB.response data) (js "False")
          then
            setErrorMessage (or_else (Error data) (js "Failed to fetch movies")) ;;
            setMoviesList []
          else
            setMoviesList (match results data with Some l => l | None => [] end))
       (fun error =>
          print (console_log_text (js "Error fetching movies: " ++ error_to_string error)) ;;
          setErrorMessage try_again_later))
    (setIsLoading false).

(** *** [updateSearchCount] cut at its first [await]

    A call runs up to [await database.listDocuments(...)], is suspended,
    and runs its second half when the answer is there. *)

Definition first_half (searchTerm : JsString) : M (option DocumentList) :=
  try_catch
    (result <- listDocuments env [equal (js "searchTerm") (VString searchTerm)] ;;
     ret (Some result))
    (fun error => print (console_log_error error) ;; ret None).

Definition second_half (searchTerm : JsString) (movie : Movie)
           (answer : option DocumentList) : M unit :=
  match answer with
  | None => ret tt
  | Some result =>
      try_catch
        (match documents result with
         | doc :: _ =>
             updateDocument env (dollar_id doc)
                            (mkPatch None (Some (number_add (count doc) 1)) None None) ;;
             ret tt
         | [] =>
             i <- ID_unique env ;;
             createDocument env i
               (mkNew searchTerm 1 (id movie)
                      (poster_template ++ to_string (poster_path movie))) ;;
             ret tt
         end)
        (fun error => print (console_log_error error))
  end.

(** Two calls for the same term started together: both lookups are
    answered before either call writes. *)
Definition overlapped (searchTerm : JsString) (movie1 movie2 : Movie) : M unit :=
  answer1 <- first_half searchTerm ;;
  answer2 <- first_half searchTerm ;;
  second_half searchTerm movie1 answer1 ;;
  second_half searchTerm movie2 answer2.

End Loader.

(** *** The sections of the page *)

(** The [all-movies] section:
    [isLoading ? <Spinner/> : errorMessage ? <p>...</p> : <ul>...</ul>]. *)
Inductive MoviesView :=
| Spinner
| ErrorText (message : JsString)
| MovieCards (movies : list Movie).

Definition all_movies_section (w : World) : MoviesView :=
  if isLoading w then Spinner
  else if truthy (errorMessage w) then ErrorText (errorMessage w)
  else MovieCards (moviesList w).

(** One [<li>] of the trending list: its key [movie.$id], the rank
    [index + 1] and the image source [movie.poster_url]. *)
Record TrendingItem := mkItem {
  key : JsString;
  rank : nat;
  src : JsString }.

Inductive TrendingView :=
| TrendingSpinner
| TrendingErrorText (message : JsString)
| TrendingList (items : list TrendingItem)
| NoTrendingMovies.

Fixpoint items_from (index : nat) (docs : list Document) : list TrendingItem :=
  match docs with
  | [] => []
  | movie :: rest =>
      mkItem (dollar_id movie) (index + 1) (poster_url movie) :: items_from (S index) rest
  end.

(** The [trending] section. Reading [trendingMovies.length] throws when
    [trendingMovies] is [undefined]. *)
Definition trending_section (s : App) : Completion TrendingView :=
  if isTrendingLoading s then Normal TrendingSpinner
  else if truthy (trendingError s) then Normal (TrendingErrorText (trendingError s))
  else match trendingMovies s with
       | undefined => Throw length_of_undefined
       | array [] => Normal NoTrendingMovies
       | array (movie :: rest) => Normal (TrendingList (items_from 0 (movie :: rest)))
       end.

(** [App] as it is mounted: [useState] initial values. *)
Definition mounted (w : World) : App :=
  mkApp w (array []) false (js "") [].

(** ** More vocabulary *)

(** A record that is kept: same identifier, term, movie and poster, and a
    count that is not lower. *)
Definition kept (a b : Document) : Prop :=
  frame a = frame b /\ (count a <= count b)%Z.

(** The collection only grows: the old records are kept, in place, and
    new ones come after them. *)
Definition grows (docs docs' : list Document) : Prop :=
  exists changed added, docs' = changed ++ added /\ Forall2 kept docs changed.

(** The record as the update leaves it: the count is the sum, as a
    number, of the count and 1; nothing else is changed. *)
Definition recounted (d : Document) : Document :=
  mkDocument (dollar_id d) (searchTerm d) (number_add (count d) 1)
             (movie_id d) (poster_url d).

(** Every count is a JavaScript number. *)
Definition numbers (docs : list Document) : Prop :=
  Forall (fun d => nearest_double (count d) = count d) docs.

(** The characters [encodeURI] leaves as they are although they are URL
    syntax: [;/?:@&=+$,] and [#]. *)
Definition reserved (c : N) : bool := mem c uriReserved || N.eqb c 35.

(** The characters that stand for themselves in a percent-encoded
    component: letters, digits and the marks [-_.!~*'()]. *)
Definition unreserved (c : N) : bool :=
  in_range 97 122 c || in_range 65 90 c || in_range 48 57 c || mem c uriMark.

(** The spec's words, sections 4.1 and 6: the query text percent-encoded
    into [?query={encoded}]. Percent-encoding of a URL component: an
    unreserved character stands for itself, every other character is
    replaced by the [%XX] escapes of its UTF-8 octets. (An unpaired
    surrogate is no character; its own code is escaped.) *)
Fixpoint percent_encoded (s : JsString) : JsString :=
  match s with
  | [] => []
  | c :: rest =>
      if unreserved c then c :: percent_encoded rest
      else if is_leading_surrogate c then
        match rest with
        | d :: rest' =>
            if is_trailing_surrogate d
            then escape ((c - 55296) * 1024 + (d - 56320) + 65536)%N
                 ++ percent_encoded rest'
            else escape c ++ percent_encoded rest
        | [] => escape c
        end
      else escape c ++ percent_encoded rest
  end.

(** A record whose count, 2^54 + 1, is not a number: no double holds it. *)
Definition unreadable_record : Document :=
  mkDocument (js "doc-1") (js "dune") (2 ^ 54 + 1) 438631 (js "/p.jpg").


(** A character [encodeURI] may put in its result. *)
Definition uri_char (c : N) : bool := unescaped c || N.eqb c 37.

(** What the [all-movies] section is drawn from. *)
Definition shown (w : World) : list Movie * JsString * bool :=
  (moviesList w, errorMessage w, isLoading w).

(** What a run of [fetchMovies] leaves to be shown, from the argument, the
    list shown before and the transport's answer alone. *)
Definition outcome (arg : option JsString) (before : list Movie)
           (reply : JsString -> FetchOutcome) : list Movie * JsString * bool :=
  match endpoint_of (query_of arg) with
  | Throw _ => (before, try_again_later, false)
  | Normal url =>
      match reply url with
      | Rejects _ => (before, try_again_later, false)
      | Responds r =>
          if negb (ok r) then (before, try_again_later, false)
          else match body r with
               | BadJson _ => (before, try_again_later, false)
               | Json d =>
                   if strict_equal (TMDB.response d) (js "False")
                   then ([], or_else (Error d) (js "Failed to fetch movies"), false)
                   else match results d with
                        | Some l => (l, js "", false)
                        | None =>
                            if truthy (query_of arg)
                            then ([], try_again_later, false)
                            else ([], js "", false)
                        end
               end
      end
  end.

(** The transport answers every request with a page of results. *)
Definition finding (l : list Movie) : Response :=
  mkResponse true (Json (mkData None None (Some l))).

(** The transport finds [dune]; the store is down. *)
Definition finding_store_down : Env :=
  mkEnv (fun _ _ => Responds (finding [dune])) (fun _ => Some unavailable)
        (fun n => repeat 97%N n).

(** The body of a service that reports a failure in a success response. *)
Definition flagged_body (message : option JsString) : Response :=
  mkResponse true (Json (mkData (Some (js "False")) message (Some [dune]))).

(** * Properties *)

(** ** Strings *)

Lemma eqb_eq (a b : JsString) : JS.eqb a b = true <-> a = b.
Proof.
  revert b; induction a as [|x a IH]; intros [|y b]; simpl; split;
    try congruence; try reflexivity.
  - intros H. apply andb_true_iff in H as [Hx Hab].
    apply N.eqb_eq in Hx. apply IH in Hab. congruence.
  - intros H. injection H as -> ->.
    apply andb_true_iff; split; [apply N.eqb_refl | now apply IH].
Qed.

Lemma eqb_refl (a : JsString) : JS.eqb a a = true.
Proof. now apply eqb_eq. Qed.

Lemma eqb_neq (a b : JsString) : JS.eqb a b = false <-> a <> b.
Proof.
  split.
  - intros H E. apply eqb_eq in E. congruence.
  - intros H. destruct (JS.eqb a b) eqn:E; [|reflexivity].
    apply eqb_eq in E. contradiction.
Qed.

(** ** Numbers *)

Section Doubles.

Local Open Scope Z_scope.
Local Unset Implicit Arguments.

Lemma nearest_double_exact (n : Z) : Z.abs n <= 2 ^ 53 -> nearest_double n = n.
Proof.
  intros H.
  destruct (Z.eq_dec n (2 ^ 53)) as [-> | Hhi]; [reflexivity|].
  destruct (Z.eq_dec n (- 2 ^ 53)) as [-> | Hlo]; [reflexivity|].
  unfold nearest_double, round_magnitude.
  destruct (Z.ltb_spec n 0).
  - destruct (Z.ltb_spec (- n) (2 ^ 53)); lia.
  - destruct (Z.ltb_spec n (2 ^ 53)); lia.
Qed.

Lemma round_at_mono (e a b : Z) :
  0 <= e -> 0 <= a <= b -> round_at e a <= round_at e b.
Proof.
  intros He Hab. unfold round_at.
  assert (HP : 0 < 2 ^ e) by (apply Z.pow_pos_nonneg; lia).
  set (P := 2 ^ e) in *. set (h := 2 ^ (e - 1)).
  pose proof (Z.div_mod a P ltac:(lia)) as Ha.
  pose proof (Z.div_mod b P ltac:(lia)) as Hb.
  pose proof (Z.mod_pos_bound a P HP) as Hra.
  pose proof (Z.mod_pos_bound b P HP) as Hrb.
  assert (Hq : a / P <= b / P) by (apply Z.div_le_mono; lia).
  apply Z.mul_le_mono_nonneg_r; [lia|].
  destruct (Z.eq_dec (a / P) (b / P)) as [E | N].
  - rewrite <- E in *. assert (a mod P <= b mod P) by nia.
    destruct (Z.ltb_spec (a mod P) h), (Z.ltb_spec (b mod P) h),
      (Z.ltb_spec h (a mod P)), (Z.ltb_spec h (b mod P)), (Z.even (a / P)); lia.
  - destruct (Z.ltb_spec (a mod P) h), (Z.ltb_spec (b mod P) h),
      (Z.ltb_spec h (a mod P)), (Z.ltb_spec h (b mod P)),
      (Z.even (a / P)), (Z.even (b / P)); lia.
Qed.

(** From 2^53 on, the rounded value is a multiple of the spacing with a
    quotient of 53 bits, or the next power of two. *)
Lemma round_at_shape (a : Z) :
  2 ^ 53 <= a ->
  let e := Z.log2 a - 52 in
  exists m, round_at e a = m * 2 ^ e /\ 2 ^ 52 <= m <= 2 ^ 53 /\ 1 <= e.
Proof.
  intros Ha e.
  assert (Hpos : 0 < a) by (pose proof (Z.pow_pos_nonneg 2 53); lia).
  destruct (Z.log2_spec a Hpos) as [Hlo Hhi].
  assert (Hk : 53 <= Z.log2 a).
  { apply Z.log2_le_pow2; lia. }
  assert (He : 1 <= e) by (unfold e; lia).
  assert (HP : 0 < 2 ^ e) by (apply Z.pow_pos_nonneg; lia).
  assert (Hsplit : 2 ^ Z.log2 a = 2 ^ 52 * 2 ^ e).
  { unfold e. rewrite <- Z.pow_add_r by lia. f_equal. lia. }
  assert (Hsplit' : 2 ^ Z.succ (Z.log2 a) = 2 ^ 53 * 2 ^ e).
  { unfold e. rewrite <- Z.pow_add_r by lia. f_equal. lia. }
  assert (Hq1 : 2 ^ 52 <= a / 2 ^ e).
  { apply Z.div_le_lower_bound; [lia|]. rewrite Z.mul_comm. lia. }
  assert (Hq2 : a / 2 ^ e < 2 ^ 53).
  { apply Z.div_lt_upper_bound; [lia|]. rewrite Z.mul_comm. lia. }
  unfold round_at. fold e.
  eexists. split; [reflexivity|]. split; [|exact He].
  destruct (a mod 2 ^ e <? 2 ^ (e - 1)), (2 ^ (e - 1) <? a mod 2 ^ e),
    (Z.even (a / 2 ^ e)); lia.
Qed.

Lemma round_magnitude_bounds (a : Z) :
  2 ^ 53 <= a -> 2 ^ Z.log2 a <= round_magnitude a <= 2 ^ (Z.log2 a + 1).
Proof.
  intros Ha. unfold round_magnitude.
  destruct (Z.ltb_spec a (2 ^ 53)); [lia|].
  destruct (round_at_shape a Ha) as (m & -> & Hm & He).
  assert (Hk : 53 <= Z.log2 a).
  { apply Z.log2_le_pow2; [pose proof (Z.pow_pos_nonneg 2 53); lia | lia]. }
  set (e := Z.log2 a - 52) in *.
  assert (HP : 0 < 2 ^ e) by (apply Z.pow_pos_nonneg; lia).
  replace (2 ^ Z.log2 a) with (2 ^ 52 * 2 ^ e)
    by (unfold e; rewrite <- Z.pow_add_r by lia; f_equal; lia).
  replace (2 ^ (Z.log2 a + 1)) with (2 ^ 53 * 2 ^ e)
    by (unfold e; rewrite <- Z.pow_add_r by lia; f_equal; lia).
  nia.
Qed.

Lemma round_magnitude_mono (a b : Z) :
  0 <= a <= b -> round_magnitude a <= round_magnitude b.
Proof.
  intros Hab.
  destruct (Z.lt_ge_cases b (2 ^ 53)) as [Hb | Hb].
  { unfold round_magnitude.
    destruct (Z.ltb_spec a (2 ^ 53)), (Z.ltb_spec b (2 ^ 53)); lia. }
  pose proof (round_magnitude_bounds b Hb) as [Hblo _].
  assert (Hkb : 53 <= Z.log2 b).
  { apply Z.log2_le_pow2; [pose proof (Z.pow_pos_nonneg 2 53); lia | lia]. }
  destruct (Z.lt_ge_cases a (2 ^ 53)) as [Ha | Ha].
  { assert (2 ^ 53 <= 2 ^ Z.log2 b) by (apply Z.pow_le_mono_r; lia).
    unfold round_magnitude at 1. destruct (Z.ltb_spec a (2 ^ 53)); lia. }
  pose proof (round_magnitude_bounds a Ha) as [_ Hahi].
  assert (Hlog : Z.log2 a <= Z.log2 b) by (apply Z.log2_le_mono; lia).
  destruct (Z.eq_dec (Z.log2 a) (Z.log2 b)) as [E | N].
  - unfold round_magnitude.
    destruct (Z.ltb_spec a (2 ^ 53)), (Z.ltb_spec b (2 ^ 53)); try lia.
    rewrite E. apply round_at_mono; lia.
  - assert (2 ^ (Z.log2 a + 1) <= 2 ^ Z.log2 b) by (apply Z.pow_le_mono_r; lia).
    lia.
Qed.

Lemma round_magnitude_nonneg (a : Z) : 0 <= a -> 0 <= round_magnitude a.
Proof.
  intros Ha. destruct (Z.lt_ge_cases a (2 ^ 53)) as [H | H].
  - unfold round_magnitude. destruct (Z.ltb_spec a (2 ^ 53)); lia.
  - pose proof (round_magnitude_bounds a H) as [Hlo _].
    pose proof (Z.pow_pos_nonneg 2 (Z.log2 a) ltac:(lia) (Z.log2_nonneg a)). lia.
Qed.

Lemma nearest_double_mono (n m : Z) : n <= m -> nearest_double n <= nearest_double m.
Proof.
  intros H. unfold nearest_double.
  destruct (Z.ltb_spec n 0), (Z.ltb_spec m 0); try lia.
  - pose proof (round_magnitude_mono (- m) (- n) ltac:(lia)). lia.
  - pose proof (round_magnitude_nonneg (- n) ltac:(lia)).
    pose proof (round_magnitude_nonneg m ltac:(lia)). lia.
  - apply round_magnitude_mono. lia.
Qed.

Lemma round_magnitude_idem (a : Z) :
  0 <= a -> round_magnitude (round_magnitude a) = round_magnitude a.
Proof.
  intros Ha0.
  destruct (Z.lt_ge_cases a (2 ^ 53)) as [Ha | Ha].
  { unfold round_magnitude. destruct (Z.ltb_spec a (2 ^ 53)); [|lia].
    destruct (Z.ltb_spec a (2 ^ 53)); lia. }
  assert (Hk : 53 <= Z.log2 a).
  { apply Z.log2_le_pow2; [pose proof (Z.pow_pos_nonneg 2 53); lia | lia]. }
  destruct (round_at_shape a Ha) as (m & Hshape & Hm & He).
  assert (Hr : round_magnitude a = m * 2 ^ (Z.log2 a - 52)).
  { unfold round_magnitude. destruct (Z.ltb_spec a (2 ^ 53)); [lia | exact Hshape]. }
  rewrite Hr. clear Hr Hshape.
  set (e := Z.log2 a - 52) in *.
  assert (HP : 0 < 2 ^ e) by (apply Z.pow_pos_nonneg; lia).
  assert (Hv : 2 ^ 53 <= m * 2 ^ e).
  { replace (2 ^ 53) with (2 ^ 52 * 2 ^ 1) by reflexivity.
    assert (2 ^ 1 <= 2 ^ e) by (apply Z.pow_le_mono_r; lia). nia. }
  unfold round_magnitude. destruct (Z.ltb_spec (m * 2 ^ e) (2 ^ 53)); [lia|].
  destruct (Z.eq_dec m (2 ^ 53)) as [-> | Hm'].
  - assert (Hlog : Z.log2 (2 ^ 53 * 2 ^ e) = 53 + e).
    { rewrite <- Z.pow_add_r by lia. apply Z.log2_pow2. lia. }
    rewrite Hlog. unfold round_at.
    replace (53 + e - 52) with (e + 1) by lia.
    assert (Hdiv : 2 ^ 53 * 2 ^ e = 2 ^ 52 * 2 ^ (e + 1)).
    { rewrite <- !Z.pow_add_r by lia. f_equal. lia. }
    rewrite Hdiv, Z.div_mul, Z.mod_mul by lia.
    replace (e + 1 - 1) with e by lia.
    destruct (Z.ltb_spec 0 (2 ^ e)); [reflexivity | lia].
  - assert (Hlog : Z.log2 (m * 2 ^ e) = 52 + e).
    { apply Z.log2_unique; [lia|]. 
      replace (2 ^ (52 + e)) with (2 ^ 52 * 2 ^ e) by (rewrite <- Z.pow_add_r by lia; reflexivity).
      replace (2 ^ Z.succ (52 + e)) with (2 ^ 53 * 2 ^ e)
        by (rewrite <- Z.pow_add_r by lia; f_equal; lia).
      nia. }
    rewrite Hlog. unfold round_at.
    replace (52 + e - 52) with e by lia.
    rewrite Z.div_mul, Z.mod_mul by lia.
    assert (0 < 2 ^ (e - 1)) by (apply Z.pow_pos_nonneg; lia).
    destruct (Z.ltb_spec 0 (2 ^ (e - 1))); [reflexivity | lia].
Qed.

Lemma nearest_double_idem (n : Z) : nearest_double (nearest_double n) = nearest_double n.
Proof.
  destruct (Z.lt_ge_cases n 0) as [Hn | Hn].
  - pose proof (round_magnitude_nonneg (- n) ltac:(lia)) as H0.
    assert (E : nearest_double n = - round_magnitude (- n)).
    { unfold nearest_double. destruct (Z.ltb_spec n 0); lia. }
    rewrite E. unfold nearest_double.
    destruct (Z.ltb_spec (- round_magnitude (- n)) 0).
    + rewrite Z.opp_involutive, round_magnitude_idem by lia. reflexivity.
    + assert (E0 : round_magnitude (- n) = 0) by lia. rewrite E0. reflexivity.
  - pose proof (round_magnitude_nonneg n ltac:(lia)) as H0.
    assert (E : nearest_double n = round_magnitude n).
    { unfold nearest_double. destruct (Z.ltb_spec n 0); lia. }
    rewrite E. unfold nearest_double.
    destruct (Z.ltb_spec (round_magnitude n) 0); [lia|].
    apply round_magnitude_idem. lia.
Qed.

(** Adding 1 to a number never gives less. *)
Lemma number_add_one_le (c : Z) : nearest_double c = c -> c <= number_add c 1.
Proof.
  intros Hc. unfold number_add. rewrite <- Hc at 1.
  apply nearest_double_mono. lia.
Qed.

Lemma number_add_exact (c : Z) : Z.abs c < 2 ^ 53 -> number_add c 1 = c + 1.
Proof. intros Hc. unfold number_add. apply nearest_double_exact. lia. Qed.

End Doubles.

(** ** The store *)

Lemma attribute_of_count (d : Document) :
  attribute_of d (js "count") = VNumber (count d).
Proof. reflexivity. Qed.

Lemma attribute_of_searchTerm (d : Document) :
  attribute_of d (js "searchTerm") = VString (searchTerm d).
Proof. reflexivity. Qed.

Lemma filter_ext_eq {A} (f g : A -> bool) (l : list A) :
  (forall x, f x = g x) -> filter f l = filter g l.
Proof.
  intros H; induction l as [|x l IH]; simpl; [reflexivity|].
  rewrite H, IH. reflexivity.
Qed.

Lemma filter_all {A} (l : list A) : filter (fun _ => true) l = l.
Proof. induction l; simpl; congruence. Qed.

(** The lookup of [updateSearchCount] returns the records of the term, at
    most the default page of them. *)
Lemma select_by_term (term : JsString) (docs : list Document) :
  documents (select [equal (js "searchTerm") (VString term)] docs)
  = firstn default_limit (records_for term docs).
Proof.
  unfold select, records_for. cbn [documents limit_of ordered fold_right].
  f_equal. apply filter_ext_eq. intros d.
  unfold matches. cbn [forallb]. rewrite attribute_of_searchTerm.
  cbn [value_eqb]. apply andb_true_r.
Qed.

(** The query of [getTrendingMovies] returns the first five records of the
    collection sorted by descending count. *)
Lemma select_trending (docs : list Document) :
  documents (select [limit 5; orderDesc (js "count")] docs)
  = firstn 5 (sort_desc (js "count") docs).
Proof.
  unfold select. cbn [documents limit_of ordered fold_right].
  replace (filter (matches [limit 5; orderDesc (js "count")]) docs) with docs;
    [reflexivity|].
  symmetry. rewrite <- (filter_all docs) at 2. apply filter_ext_eq.
  intros d. reflexivity.
Qed.

Lemma records_for_nil_iff (term : JsString) (docs : list Document) :
  records_for term docs = [] <-> ~ In term (map searchTerm docs).
Proof.
  unfold records_for. induction docs as [|d docs IH]; simpl.
  - tauto.
  - destruct (JS.eqb (searchTerm d) term) eqn:E.
    + apply eqb_eq in E. split; [discriminate | intros H; exfalso; apply H; now left].
    + apply eqb_neq in E. rewrite IH. tauto.
Qed.

Lemma records_for_app (term : JsString) (l1 l2 : list Document) :
  records_for term (l1 ++ l2) = records_for term l1 ++ records_for term l2.
Proof. apply filter_app. Qed.

Lemma firstn_default_nil {A} (l : list A) :
  firstn default_limit l = [] -> l = [].
Proof. destruct l; [reflexivity | discriminate]. Qed.

Lemma has_id_true (i : JsString) (d : Document) :
  has_id i d = true <-> dollar_id d = i.
Proof. apply eqb_eq. Qed.

Lemma existsb_has_id (i : JsString) (docs : list Document) :
  existsb (has_id i) docs = true <-> In i (map dollar_id docs).
Proof.
  rewrite existsb_exists, in_map_iff. split.
  - intros (d & Hin & H). apply has_id_true in H. eauto.
  - intros (d & H & Hin). exists d. split; [assumption | now apply has_id_true].
Qed.

(** Updating the counter through a record's identifier touches that record
    alone when identifiers are unique. *)
Lemma update_count_at (pre post : list Document) (d : Document) :
  distinct_ids (pre ++ d :: post) ->
  update (dollar_id d) (mkPatch None (Some (number_add (count d) 1)) None None)
         (pre ++ d :: post)
  = (Normal (recounted d), pre ++ recounted d :: post).
Proof.
  unfold distinct_ids. rewrite map_app. cbn [map]. intros Hnd.
  assert (Hpre : ~ In (dollar_id d) (map dollar_id pre)).
  { intros Hin. apply NoDup_remove_2 in Hnd. apply Hnd.
    apply in_or_app. now left. }
  assert (Hpost : ~ In (dollar_id d) (map dollar_id post)).
  { intros Hin. apply NoDup_remove_2 in Hnd. apply Hnd.
    apply in_or_app. now right. }
  assert (Hid : forall l, ~ In (dollar_id d) (map dollar_id l) ->
                forall x, In x l -> has_id (dollar_id d) x = false).
  { intros l Hl x Hx. destruct (has_id (dollar_id d) x) eqn:E; [|reflexivity].
    apply has_id_true in E. exfalso. apply Hl. rewrite <- E. now apply in_map. }
  assert (Hmap : forall l, ~ In (dollar_id d) (map dollar_id l) ->
                 map (fun x => if has_id (dollar_id d) x
                               then apply (mkPatch None (Some (number_add (count d) 1))
                                                   None None) x
                               else x) l = l).
  { intros l Hl. rewrite <- (map_id l) at 2. apply map_ext_in.
    intros x Hx. now rewrite (Hid l Hl x Hx). }
  assert (Hfind : find (has_id (dollar_id d)) (pre ++ d :: post) = Some d).
  { clear Hnd Hpost Hmap. induction pre as [|p pre IH]; simpl.
    - unfold has_id at 1. now rewrite eqb_refl.
    - rewrite (Hid (p :: pre) Hpre p (or_introl eq_refl)).
      apply IH. intros Hin. apply Hpre. now right. }
  unfold update. rewrite Hfind. f_equal.
  rewrite map_app. cbn [map]. rewrite (Hmap pre Hpre), (Hmap post Hpost).
  unfold has_id at 1. rewrite eqb_refl. reflexivity.
Qed.

(** Whatever [updateDocument] is asked to do with a counter, the other
    attributes and the order of the collection stay. *)
Lemma update_count_frame (i : JsString) (c : Z) (docs : list Document) :
  map frame (snd (update i (mkPatch None (Some c) None None) docs)) = map frame docs.
Proof.
  unfold update. destruct (find (has_id i) docs); [|reflexivity].
  cbn [snd]. rewrite map_map. apply map_ext. intros x.
  destruct (has_id i x); reflexivity.
Qed.

Lemma map_frame_searchTerm (l1 l2 : list Document) :
  map frame l1 = map frame l2 -> map searchTerm l1 = map searchTerm l2.
Proof.
  intros H.
  assert (E : forall l, map searchTerm l = map (fun t => snd (fst (fst t))) (map frame l)).
  { intros l. rewrite map_map. reflexivity. }
  rewrite (E l1), (E l2), H. reflexivity.
Qed.

(** ** [updateSearchCount] *)

(** Every run of [updateSearchCount] is one of three: a failure that is
    logged and leaves the collection alone, an update of the counter of the
    first record of the term, or the creation of the term's first record. *)
Lemma updateSearchCount_run (env : Env) (term : JsString) (movie : Movie) (w : World) :
  exists docs logs ticks,
    updateSearchCount env term movie w
    = (Normal tt,
       mkWorld (moviesList w) (errorMessage w) (isLoading w) docs
               (console w ++ logs) (requests w) ticks)
    /\ ((docs = collection w /\ exists e, logs = [console_log_error e])
        \/ (logs = [] /\ exists d rest,
               records_for term (collection w) = d :: rest
               /\ docs = snd (update (dollar_id d) (count_patch d) (collection w)))
        \/ (logs = [] /\ records_for term (collection w) = []
            /\ ~ In (unique env (S (clock w))) (map dollar_id (collection w))
            /\ docs = collection w ++ [first_record env w term movie])).
Proof.
  unfold updateSearchCount, try_catch, bind, listDocuments, request.
  destruct (store_fault env (clock w)) as [e|] eqn:Hlist.
  - (* the lookup fails *)
    exists (collection w), [console_log_error e], (S (clock w)).
    split; [reflexivity | left; eauto].
  - rewrite select_by_term.
    destruct (records_for term (collection w)) as [|d rest] eqn:Hrec.
    + (* no record of the term: create one *)
      unfold default_limit, ID_unique, createDocument, request.
      cbn [firstn clock collection].
      destruct (store_fault env (S (clock w))) as [e|] eqn:Hwrite.
      * exists (collection w), [console_log_error e], (S (S (clock w))).
        split; [reflexivity | left; eauto].
      * unfold create.
        destruct (existsb (has_id (unique env (S (clock w)))) (collection w)) eqn:Hid.
        -- exists (collection w), [console_log_error conflict], (S (S (clock w))).
           split; [reflexivity | left; eauto].
        -- exists (collection w ++ [first_record env w term movie]), [], (S (S (clock w))).
           split; [cbn; rewrite app_nil_r; reflexivity|].
           right; right. repeat split; try reflexivity.
           intros Hin. apply existsb_has_id in Hin. congruence.
    + (* a record of the term: update its counter *)
      unfold default_limit, updateDocument, request.
      cbn [firstn clock collection].
      destruct (store_fault env (S (clock w))) as [e|] eqn:Hwrite.
      * exists (collection w), [console_log_error e], (S (S (clock w))).
        split; [reflexivity | left; eauto].
      * fold (count_patch d).
        destruct (update (dollar_id d) (count_patch d) (collection w)) as [[u|e] docs] eqn:Hup.
        -- exists docs, [], (S (S (clock w))).
           split; [cbn; rewrite app_nil_r; reflexivity|].
           right; left. split; [reflexivity|]. exists d, rest. split; [reflexivity|].
           now rewrite Hup.
        -- exists (collection w), [console_log_error e], (S (S (clock w))).
           split; [|left; eauto].
           unfold update in Hup. destruct (find _ _); inversion Hup; subst.
           reflexivity.
Qed.

Lemma updateSearchCount_found (env : Env) (term : JsString) (movie : Movie) (w : World)
      (pre post : list Document) (d : Document) :
  store_fault env (clock w) = None ->
  store_fault env (S (clock w)) = None ->
  distinct_ids (collection w) ->
  collection w = pre ++ d :: post ->
  records_for term pre = [] ->
  searchTerm d = term ->
  updateSearchCount env term movie w
  = (Normal tt,
     mkWorld (moviesList w) (errorMessage w) (isLoading w)
             (pre ++ recounted d :: post)
             (console w) (requests w) (S (S (clock w)))).
Proof.
  intros Hlist Hwrite Hids Hdocs Hpre Hterm.
  assert (Hrec : exists rest, records_for term (collection w) = d :: rest).
  { rewrite Hdocs, records_for_app, Hpre. cbn [app]. unfold records_for.
    cbn [filter]. rewrite Hterm, eqb_refl. eauto. }
  destruct Hrec as [rest Hrec].
  unfold updateSearchCount, try_catch, bind, listDocuments, request.
  rewrite Hlist, select_by_term, Hrec.
  unfold default_limit, updateDocument, request.
  cbn [firstn clock collection]. rewrite Hwrite.
  rewrite Hdocs in Hids |- *.
  rewrite (update_count_at pre post d Hids). reflexivity.
Qed.

Lemma updateSearchCount_created (env : Env) (term : JsString) (movie : Movie) (w : World) :
  store_fault env (clock w) = None ->
  store_fault env (S (clock w)) = None ->
  records_for term (collection w) = [] ->
  ~ In (unique env (S (clock w))) (map dollar_id (collection w)) ->
  updateSearchCount env term movie w
  = (Normal tt,
     mkWorld (moviesList w) (errorMessage w) (isLoading w)
             (collection w ++ [first_record env w term movie])
             (console w) (requests w) (S (S (clock w)))).
Proof.
  intros Hlist Hwrite Hrec Hfresh.
  unfold updateSearchCount, try_catch, bind, listDocuments, request.
  rewrite Hlist, select_by_term, Hrec.
  unfold default_limit, ID_unique, createDocument, request.
  cbn [firstn clock collection]. rewrite Hwrite.
  unfold create.
  destruct (existsb (has_id (unique env (S (clock w)))) (collection w)) eqn:Hid.
  - apply existsb_has_id in Hid. contradiction.
  - reflexivity.
Qed.

Lemma distinct_ids_snoc (docs : list Document) (d : Document) :
  distinct_ids docs -> ~ In (dollar_id d) (map dollar_id docs) ->
  distinct_ids (docs ++ [d]).
Proof.
  unfold distinct_ids. intros Hnd Hfresh. rewrite map_app. cbn [map].
  apply NoDup_rev in Hnd. rewrite <- (rev_involutive (map dollar_id docs ++ _)).
  apply NoDup_rev. rewrite rev_app_distr. cbn [rev app].
  constructor; [|assumption]. rewrite <- in_rev. assumption.
Qed.

Lemma recounted_exact (d : Document) :
  (Z.abs (count d) < 2 ^ 53)%Z -> recounted d = incremented d.
Proof.
  intros Hd. unfold recounted, incremented. now rewrite number_add_exact.
Qed.



Lemma updateSearchCount_resolves (env : Env) (term : JsString) (movie : Movie) (w : World) :
  fst (updateSearchCount env term movie w) = Normal tt.
Proof.
  destruct (updateSearchCount_run env term movie w) as (docs & logs & ticks & Hrun & _).
  now rewrite Hrun.
Qed.

Lemma NoDup_snoc {A} (l : list A) (x : A) :
  NoDup l -> ~ In x l -> NoDup (l ++ [x]).
Proof.
  intros Hnd Hx. induction Hnd as [|y l Hy Hnd IH]; cbn [app].
  - constructor; [intros [] | constructor].
  - constructor.
    + rewrite in_app_iff. intros [H | [H | []]].
      * contradiction.
      * subst. apply Hx. now left.
    + apply IH. intros H. apply Hx. now right.
Qed.

Lemma updateSearchCount_keeps_terms (env : Env) (term : JsString) (movie : Movie) (w : World) :
  one_record_per_term (collection w) ->
  one_record_per_term (collection (snd (updateSearchCount env term movie w))).
Proof.
  intros Hinv.
  destruct (updateSearchCount_run env term movie w)
    as (docs & logs & ticks & Hrun & [[Hdocs _] | [[_ (d & rest & _ & Hdocs)] | (_ & Hrec & _ & Hdocs)]]);
    rewrite Hrun; cbn [snd collection]; subst docs.
  - assumption.
  - unfold one_record_per_term, count_patch.
    rewrite (map_frame_searchTerm _ _ (update_count_frame _ _ _)). assumption.
  - unfold one_record_per_term. rewrite map_app. cbn [map first_record searchTerm].
    apply NoDup_snoc; [assumption|]. now apply records_for_nil_iff.
Qed.

(** C2. Whatever the store and the generated identifiers do, searches
    recorded one after the other keep the invariant of the data model: a
    collection with at most one record per search term still has at most
    one record per search term afterwards. *)
Theorem recordSearches_one_record_per_term
        (env : Env) (searches : list (JsString * Movie)) (w : World) :
  one_record_per_term (collection w) ->
  one_record_per_term (collection (snd (recordSearches env searches w))).
Proof.
  revert w. induction searches as [|[term movie] rest IH]; intros w Hinv.
  - exact Hinv.
  - cbn [recordSearches]. unfold bind.
    pose proof (updateSearchCount_keeps_terms env term movie w Hinv) as Hstep.
    pose proof (updateSearchCount_resolves env term movie w) as Hres.
    destruct (updateSearchCount env term movie w) as [[[]|e] w'];
      cbn [fst snd] in *; [|discriminate].
    now apply IH.
Qed.

(** C4. [updateSearchCount] resolves on every path: whatever the lookup,
    the update or the create does, the completion is normal and the state
    cells of the caller are as before. A failure of the lookup, or of the
    write after a lookup that worked, leaves the collection as it was and
    adds exactly one line to the console, the error itself; and every run
    either logs nothing or logs one error and changes no record. *)
Theorem updateSearchCount_swallows_failures
        (env : Env) (term : JsString) (movie : Movie) (w : World) :
  let w' := snd (updateSearchCount env term movie w) in
  fst (updateSearchCount env term movie w) = Normal tt
  /\ moviesList w' = moviesList w
  /\ errorMessage w' = errorMessage w
  /\ isLoading w' = isLoading w
  /\ (console w' = console w
      \/ exists e, console w' = console w ++ [console_log_error e]
                   /\ collection w' = collection w)
  /\ (forall e, store_fault env (clock w) = Some e ->
                console w' = console w ++ [console_log_error e]
                /\ collection w' = collection w)
  /\ (forall e, store_fault env (clock w) = None ->
                store_fault env (S (clock w)) = Some e ->
                console w' = console w ++ [console_log_error e]
                /\ collection w' = collection w).
Proof.
  intros w'. split; [apply updateSearchCount_resolves|].
  destruct (updateSearchCount_run env term movie w)
    as (docs & logs & ticks & Hrun & Hcases).
  subst w'. split; [|split; [|split; [|split; [|split]]]];
    try (rewrite Hrun; reflexivity).
  - rewrite Hrun. cbn [snd console collection].
    destruct Hcases as [[Hdocs [e He]] | [[Hlogs _] | [Hlogs _]]]; subst.
    + right. eauto.
    + left. apply app_nil_r.
    + left. apply app_nil_r.
  - intros e Hlist. clear Hrun Hcases.
    unfold updateSearchCount, try_catch, bind, listDocuments, request.
    rewrite Hlist. split; reflexivity.
  - intros e Hlist Hwrite. clear Hrun Hcases.
    unfold updateSearchCount, try_catch, bind, listDocuments, request.
    rewrite Hlist, select_by_term.
    destruct (records_for term (collection w)) as [|d rest].
    + unfold default_limit, ID_unique, createDocument, request.
      cbn [firstn clock collection]. rewrite Hwrite. split; reflexivity.
    + unfold default_limit, updateDocument, request.
      cbn [firstn clock collection]. rewrite Hwrite. split; reflexivity.
Qed.

(** C9. A run of [updateSearchCount] whose lookup finds a record of the
    term changes no identifier, search term, movie id or poster URL: the
    collection afterwards has the same records in the same order, equal to
    the old ones in every field but possibly [count]. *)
Theorem updateSearchCount_increment_frame
        (env : Env) (term : JsString) (movie : Movie) (w : World) :
  records_for term (collection w) <> [] ->
  map frame (collection (snd (updateSearchCount env term movie w)))
  = map frame (collection w).
Proof.
  intros Hfound.
  destruct (updateSearchCount_run env term movie w)
    as (docs & logs & ticks & Hrun & [[Hdocs _] | [[_ (d & rest & _ & Hdocs)] | (_ & Hrec & _)]]);
    rewrite Hrun; cbn [snd collection].
  - now subst.
  - subst docs. apply update_count_frame.
  - contradiction.
Qed.

(** ** [getTrendingMovies] *)

Lemma insert_desc_perm (a : JsString) (x : Document) (l : list Document) :
  Permutation (insert_desc a x l) (x :: l).
Proof.
  induction l as [|y l IH]; cbn [insert_desc].
  - reflexivity.
  - destruct (value_leb _ _).
    + reflexivity.
    + rewrite IH. apply perm_swap.
Qed.

Lemma sort_desc_perm (a : JsString) (l : list Document) :
  Permutation (sort_desc a l) l.
Proof.
  induction l as [|x l IH]; cbn [sort_desc fold_right].
  - reflexivity.
  - fold (sort_desc a l). rewrite insert_desc_perm. now constructor.
Qed.

Lemma insert_desc_sorted (x : Document) (l : list Document) :
  StronglySorted ranks_before l ->
  StronglySorted ranks_before (insert_desc (js "count") x l).
Proof.
  induction 1 as [|y l Hl IH Hy]; cbn [insert_desc].
  - constructor; constructor.
  - rewrite !attribute_of_count. cbn [value_leb].
    destruct (Z.leb_spec (count y) (count x)) as [Hle | Hlt].
    + constructor; [constructor; assumption|].
      constructor; [exact Hle|].
      eapply Forall_impl; [|exact Hy]. unfold ranks_before in *. intros b Hb. lia.
    + constructor; [assumption|].
      eapply Permutation_Forall; [symmetry; apply insert_desc_perm|].
      constructor; [unfold ranks_before; lia | assumption].
Qed.

Lemma sort_desc_sorted (l : list Document) :
  StronglySorted ranks_before (sort_desc (js "count") l).
Proof.
  induction l as [|x l IH]; cbn [sort_desc fold_right].
  - constructor.
  - apply insert_desc_sorted. exact IH.
Qed.

Lemma sorted_app_inv (l1 l2 : list Document) :
  StronglySorted ranks_before (l1 ++ l2) ->
  StronglySorted ranks_before l1
  /\ forall a b, In a l1 -> In b l2 -> ranks_before a b.
Proof.
  induction l1 as [|x l1 IH]; cbn [app]; intros H.
  - split; [constructor | intros a b []].
  - apply StronglySorted_inv in H as [Hs Hx].
    destruct (IH Hs) as [Hs1 Hcross].
    apply Forall_app in Hx as [Hx1 Hx2].
    split; [constructor; assumption|].
    intros a b [<- | Ha] Hb.
    + rewrite Forall_forall in Hx2. now apply Hx2.
    + now apply Hcross.
Qed.

Lemma insert_desc_counts (x : Document) (l : list Document) :
  map count (insert_desc (js "count") x l) = insert_descZ (count x) (map count l).
Proof.
  induction l as [|y l IH]; cbn [insert_desc insert_descZ map].
  - reflexivity.
  - rewrite !attribute_of_count. cbn [value_leb].
    destruct (count y <=? count x)%Z; cbn [map]; [reflexivity | now rewrite IH].
Qed.

Lemma sort_desc_counts (l : list Document) :
  map count (sort_desc (js "count") l) = sort_descZ (map count l).
Proof.
  induction l as [|x l IH]; cbn [sort_desc sort_descZ fold_right map].
  - reflexivity.
  - fold (sort_desc (js "count") l). fold (sort_descZ (map count l)).
    now rewrite insert_desc_counts, IH.
Qed.

Lemma getTrendingMovies_answer (env : Env) (w : World) :
  store_fault env (clock w) = None ->
  fst (getTrendingMovies env w)
  = Normal (array (firstn 5 (sort_desc (js "count") (collection w)))).
Proof.
  intros Hlist. unfold getTrendingMovies, try_catch, bind, listDocuments, request.
  rewrite Hlist, select_trending. reflexivity.
Qed.

(** C3. When the store answers, [getTrendingMovies] returns the first five
    records of the collection sorted by descending count, equal counts in
    the collection's order: five records when the collection has at least
    five, and all of them otherwise. So it returns at most five records, in
    descending order of count, and they are the highest of the collection:
    with the records left out they make up the collection, and none left
    out has a higher count than one returned. On a collection with counts
    3,1,5,2,4,0 the counts returned are 5,4,3,2,1. *)
Theorem getTrendingMovies_top_five (env : Env) (w : World) :
  store_fault env (clock w) = None ->
  exists top others,
    fst (getTrendingMovies env w) = Normal (array top)
    /\ top = firstn 5 (sort_desc (js "count") (collection w))
    /\ List.length top = Nat.min 5 (List.length (collection w))
    /\ List.length top <= 5
    /\ StronglySorted ranks_before top
    /\ Permutation (top ++ others) (collection w)
    /\ (forall a b, In a top -> In b others -> ranks_before a b)
    /\ (map count (collection w) = [3; 1; 5; 2; 4; 0]%Z ->
        map count top = [5; 4; 3; 2; 1]%Z).
Proof.
  intros Hlist.
  set (sorted := sort_desc (js "count") (collection w)).
  exists (firstn 5 sorted), (skipn 5 sorted).
  pose proof (sort_desc_sorted (collection w)) as Hsorted. fold sorted in Hsorted.
  rewrite <- (firstn_skipn 5 sorted) in Hsorted.
  apply sorted_app_inv in Hsorted as [Htop Hcross].
  split; [now apply getTrendingMovies_answer|].
  split; [reflexivity|].
  split.
  { rewrite length_firstn. unfold sorted.
    now rewrite (Permutation_length (sort_desc_perm (js "count") (collection w))). }
  split; [apply firstn_le_length|].
  split; [exact Htop|].
  split; [rewrite firstn_skipn; apply sort_desc_perm|].
  split; [exact Hcross|].
  intros Hcounts. rewrite <- firstn_map. unfold sorted.
  rewrite sort_desc_counts, Hcounts. reflexivity.
Qed.

(** C5. When the store access fails, [getTrendingMovies] writes the error
    to the console with [console.error], changes no record and resolves to
    [undefined]; that is not the value of a successful read of an empty
    collection, which is the empty array. *)
Theorem getTrendingMovies_failure_is_undefined (env : Env) (w : World) (e : JsError) :
  store_fault env (clock w) = Some e ->
  let w' := snd (getTrendingMovies env w) in
  fst (getTrendingMovies env w) = Normal undefined
  /\ console w' = console w ++ [console_error_error e]
  /\ collection w' = collection w
  /\ undefined <> array []
  /\ (forall env0 w0,
         store_fault env0 (clock w0) = None -> collection w0 = [] ->
         fst (getTrendingMovies env0 w0) = Normal (array [])).
Proof.
  intros Hlist w'. subst w'.
  unfold getTrendingMovies at 1 2 3, try_catch, bind, listDocuments, request.
  rewrite Hlist. cbn.
  repeat split; try discriminate.
  intros env0 w0 Hok Hempty.
  rewrite (getTrendingMovies_answer env0 w0 Hok), Hempty. reflexivity.
Qed.

(** ** [fetchMovies] *)

Ltac run_fetchMovies :=
  unfold fetchMovies, try_finally, try_catch, bind, lift, fetch, json,
    setIsLoading, setErrorMessage, setMoviesList, print, throw, ret;
  cbn [moviesList errorMessage isLoading collection console requests clock].

Lemma fetchMovies_no_endpoint (env : Env) (arg : option JsString) (w : World) (e : JsError) :
  endpoint_of (query_of arg) = Throw e ->
  fetchMovies env arg w
  = (Normal tt,
     mkWorld (moviesList w) try_again_later false (collection w)
             (console w ++ [caught e]) (requests w) (clock w)).
Proof.
  intros Hend. run_fetchMovies. fold (query_of arg). rewrite Hend. reflexivity.
Qed.

Lemma fetchMovies_request_fails (env : Env) (arg : option JsString) (w : World) (url : JsString) :
  endpoint_of (query_of arg) = Normal url ->
  fetch_fails (transport env (clock w) url) = true ->
  fetchMovies env arg w
  = (Normal tt,
     mkWorld (moviesList w) try_again_later false (collection w)
             (console w ++ [caught (failure_of (transport env (clock w) url))])
             (requests w ++ [url]) (S (clock w))).
Proof.
  intros Hend Hfail. run_fetchMovies. fold (query_of arg). rewrite Hend.
  destruct (transport env (clock w) url) as [e | [[|] [e | d]]];
    cbn in Hfail; try discriminate; reflexivity.
Qed.

Lemma fetchMovies_flagged (env : Env) (arg : option JsString) (w : World)
      (url : JsString) (d : Data) :
  endpoint_of (query_of arg) = Normal url ->
  transport env (clock w) url = Responds (mkResponse true (Json d)) ->
  strict_equal (TMDB.response d) (js "False") = true ->
  fetchMovies env arg w
  = (Normal tt,
     mkWorld [] (or_else (Error d) (js "Failed to fetch movies")) false (collection w)
             (console w) (requests w ++ [url]) (S (clock w))).
Proof.
  intros Hend Hreply Hflag. run_fetchMovies. fold (query_of arg).
  rewrite Hend, Hreply. cbn [ok body negb]. rewrite Hflag. reflexivity.
Qed.

Lemma fetchMovies_listed (env : Env) (arg : option JsString) (w : World)
      (url : JsString) (d : Data) :
  endpoint_of (query_of arg) = Normal url ->
  transport env (clock w) url = Responds (mkResponse true (Json d)) ->
  strict_equal (TMDB.response d) (js "False") = false ->
  fetchMovies env arg w
  = match results d with
    | Some l =>
        let w' := match truthy (query_of arg), l with
                  | true, first :: _ =>
                      snd (updateSearchCount env (query_of arg) first (listed w url l))
                  | _, _ => listed w url l
                  end in
        (Normal tt,
         mkWorld l (js "") false (collection w') (console w') (requests w') (clock w'))
    | None =>
        if truthy (query_of arg)
        then (Normal tt,
              mkWorld [] try_again_later false (collection w)
                      (console w ++ [caught length_of_undefined])
                      (requests w ++ [url]) (S (clock w)))
        else (Normal tt,
              mkWorld [] (js "") false (collection w) (console w)
                      (requests w ++ [url]) (S (clock w)))
    end.
Proof.
  intros Hend Hreply Hflag. run_fetchMovies. fold (query_of arg).
  rewrite Hend, Hreply. cbn [ok body negb]. rewrite Hflag.
  destruct (results d) as [[|first l]|]; destruct (truthy (query_of arg));
    try reflexivity.
  match goal with
  | |- context [updateSearchCount env _ _ ?w0] =>
      change w0 with (listed w url (first :: l))
  end.
  destruct (updateSearchCount_run env (query_of arg) first (listed w url (first :: l)))
    as (docs & logs & ticks & Hrun & _).
  rewrite Hrun. reflexivity.
Qed.

Lemma truthy_iff (q : JsString) : truthy q = true <-> q <> [].
Proof. destruct q; cbn; split; congruence. Qed.

Lemma unescaped_ascii (c : N) : unescaped c = true -> (c < 128)%N.
Proof.
  unfold unescaped, in_range. rewrite !orb_true_iff, !andb_true_iff, !N.leb_le.
  intros [[[[[[_ H] | [_ H]] | [_ H]] | H] | H] | H]; try lia.
  - unfold mem in H. apply existsb_exists in H as (x & Hin & Hx).
    apply N.eqb_eq in Hx. subst x. vm_compute in Hin.
    repeat (destruct Hin as [<- | Hin]; [lia|]). destruct Hin.
  - unfold mem in H. apply existsb_exists in H as (x & Hin & Hx).
    apply N.eqb_eq in Hx. subst x. vm_compute in Hin.
    repeat (destruct Hin as [<- | Hin]; [lia|]). destruct Hin.
  - apply N.eqb_eq in H. lia.
Qed.

Lemma unescaped_not_surrogate (c : N) :
  unescaped c = true ->
  is_leading_surrogate c = false /\ is_trailing_surrogate c = false.
Proof.
  intros H. apply unescaped_ascii in H.
  unfold is_leading_surrogate, is_trailing_surrogate, in_range.
  split; apply andb_false_iff; left; apply N.leb_gt; lia.
Qed.

Lemma leading_not_trailing (c : N) :
  is_leading_surrogate c = true -> is_trailing_surrogate c = false.
Proof.
  unfold is_leading_surrogate, is_trailing_surrogate, in_range.
  rewrite andb_true_iff, !N.leb_le. intros [_ H].
  apply andb_false_iff; left; apply N.leb_gt; lia.
Qed.

(** [encodeURI] throws exactly on the strings with an unpaired surrogate. *)
Lemma encodeURI_cases (q : JsString) :
  (well_formed q = true /\ exists enc, encodeURI q = Normal enc)
  \/ (well_formed q = false /\ encodeURI q = Throw URIError).
Proof.
  remember (List.length q) as n eqn:Hn.
  assert (Hle : List.length q <= n) by lia. clear Hn.
  revert q Hle. induction n as [|n IH]; intros [|c rest] Hle; cbn [List.length] in Hle;
    try lia; try (left; split; [reflexivity | now exists []]).
  cbn [encodeURI well_formed].
  destruct (unescaped c) eqn:Hu.
  - destruct (unescaped_not_surrogate c Hu) as [-> ->]. cbn [negb andb].
    destruct (IH rest ltac:(lia)) as [[-> [enc ->]] | [-> ->]].
    + left. split; [reflexivity | now eexists].
    + right. split; reflexivity.
  - destruct (is_leading_surrogate c) eqn:Hlead.
    + destruct rest as [|d rest'].
      * right. split; reflexivity.
      * destruct (is_trailing_surrogate d); cbn [andb].
        -- cbn [List.length] in Hle.
           destruct (IH rest' ltac:(lia)) as [[-> [enc ->]] | [-> ->]].
           ++ left. split; [reflexivity | now eexists].
           ++ right. split; reflexivity.
        -- right. split; reflexivity.
    + destruct (is_trailing_surrogate c); cbn [negb andb].
      * right. split; reflexivity.
      * destruct (IH rest ltac:(lia)) as [[-> [enc ->]] | [-> ->]].
        -- left. split; [reflexivity | now eexists].
        -- right. split; reflexivity.
Qed.

(** What every run of [fetchMovies] has in common: it resolves, the
    spinner is off, and the one request it made, if it got as far, is the
    request for its endpoint. *)
Lemma fetchMovies_always (env : Env) (arg : option JsString) (w : World) :
  let w' := snd (fetchMovies env arg w) in
  fst (fetchMovies env arg w) = Normal tt
  /\ isLoading w' = false
  /\ requests w' = match endpoint_of (query_of arg) with
                   | Normal url => requests w ++ [url]
                   | Throw _ => requests w
                   end.
Proof.
  intros w'. subst w'.
  destruct (endpoint_of (query_of arg)) as [url|e] eqn:Hend.
  2: { rewrite (fetchMovies_no_endpoint env arg w Hend). repeat split. }
  destruct (fetch_fails (transport env (clock w) url)) eqn:Hfail.
  { rewrite (fetchMovies_request_fails env arg w Hend Hfail). repeat split. }
  destruct (transport env (clock w) url) as [e | [[|] [e | d]]] eqn:Hreply;
    cbn in Hfail; try discriminate.
  destruct (strict_equal (TMDB.response d) (js "False")) eqn:Hflag.
  { rewrite (fetchMovies_flagged env arg w Hend Hreply Hflag). repeat split. }
  rewrite (fetchMovies_listed env arg w Hend Hreply Hflag).
  destruct (results d) as [l|].
  2: { destruct (truthy (query_of arg)); repeat split. }
  cbn [fst snd isLoading requests]. repeat split.
  destruct (truthy (query_of arg)); [destruct l as [|first l]|]; try reflexivity.
  destruct (updateSearchCount_run env (query_of arg) first (listed w url (first :: l)))
    as (docs & logs & ticks & Hrun & _).
  rewrite Hrun. reflexivity.
Qed.

Lemma unescaped_unreserved (c : N) : reserved c = false -> unescaped c = unreserved c.
Proof.
  unfold reserved, unescaped, unreserved. intros H.
  apply orb_false_iff in H as [-> ->]. now rewrite !orb_false_r.
Qed.

(** On a query without unpaired surrogates and without reserved
    characters, [encodeURI] is the percent-encoding of the spec. *)
Lemma encodeURI_percent_encoded (q : JsString) :
  well_formed q = true ->
  Forall (fun c => reserved c = false) q ->
  encodeURI q = Normal (percent_encoded q).
Proof.
  remember (List.length q) as n eqn:Hn.
  assert (Hle : List.length q <= n) by lia. clear Hn.
  revert q Hle. induction n as [|n IH]; intros [|c rest] Hle Hwf Hplain;
    cbn [List.length] in Hle; try lia; try reflexivity.
  apply Forall_cons_iff in Hplain as [Hc Hrest].
  cbn [encodeURI percent_encoded well_formed] in *.
  rewrite (unescaped_unreserved c Hc).
  destruct (unreserved c) eqn:Hu.
  - rewrite <- (unescaped_unreserved c Hc) in Hu.
    destruct (unescaped_not_surrogate c Hu) as [Hl Ht]. rewrite Hl, Ht in Hwf.
    cbn [negb andb] in Hwf. now rewrite (IH rest ltac:(lia) Hwf Hrest).
  - destruct (is_leading_surrogate c).
    + destruct rest as [|d rest']; [discriminate|].
      apply andb_true_iff in Hwf as [Hd Hwf]. rewrite Hd.
      apply Forall_cons_iff in Hrest as [_ Hrest'].
      cbn [List.length] in Hle. now rewrite (IH rest' ltac:(lia) Hwf Hrest').
    + apply andb_true_iff in Hwf as [Ht Hwf].
      apply negb_true_iff in Ht. rewrite Ht.
      now rewrite (IH rest ltac:(lia) Hwf Hrest).
Qed.

(** C6, as the code has it. The endpoint depends on the query alone: for
    an absent or empty query the request goes to the popular-movies URL;
    for a non-empty query in which every surrogate is paired and that has
    none of the reserved characters [;/?:@&=+$,#], it goes to the search
    URL followed by the percent-encoded query text; for a non-empty query
    with an unpaired surrogate [encodeURI] throws, no request is made, and
    the error message is set. *)
Theorem fetchMovies_endpoint (env : Env) (arg : option JsString) (w : World) :
  let w' := snd (fetchMovies env arg w) in
  (arg = None \/ arg = Some [] ->
   requests w'
   = requests w
     ++ [js "https://api.themoviedb.org/3/discover/movie?sort_by=popularity.desc"])
  /\ (forall q, arg = Some q -> q <> [] -> well_formed q = true ->
        Forall (fun c => reserved c = false) q ->
        requests w'
        = requests w
          ++ [js "https://api.themoviedb.org/3/search/movie?query=" ++ percent_encoded q])
  /\ (forall q, arg = Some q -> q <> [] -> well_formed q = false ->
        requests w' = requests w
        /\ errorMessage w' = js "Error fetching movies. Please try again later.").
Proof.
  intros w'. destruct (fetchMovies_always env arg w) as (_ & _ & Hreq).
  fold w' in Hreq. split; [|split].
  - intros Harg. rewrite Hreq.
    destruct Harg as [-> | ->]; reflexivity.
  - intros q -> Hq Hwf Hplain. rewrite Hreq. cbn [query_of]. unfold endpoint_of.
    apply truthy_iff in Hq. rewrite Hq.
    now rewrite (encodeURI_percent_encoded Hwf Hplain).
  - intros q -> Hq Hwf. apply truthy_iff in Hq.
    destruct (encodeURI_cases q) as [[Hgood _] | [_ Henc]]; [congruence|].
    assert (Hend : endpoint_of (query_of (Some q)) = Throw URIError).
    { cbn [query_of]. unfold endpoint_of. now rewrite Hq, Henc. }
    subst w'. rewrite (fetchMovies_no_endpoint env (Some q) w Hend).
    split; reflexivity.
Qed.

(** Where the code leaves the percent-encoding of the spec: the query
    [a&query=b] is requested as it was typed, with [&] and [=] in the URL,
    and its percent-encoding is [a%26query%3Db]. *)
Lemma fetchMovies_reserved_not_escaped :
  requests (snd (fetchMovies quiet (Some (js "a&query=b")) the_world))
  = [js "https://api.themoviedb.org/3/search/movie?query=a&query=b"]
  /\ percent_encoded (js "a&query=b") = js "a%26query%3Db".
Proof. split; reflexivity. Qed.

(** The query made of one unpaired leading surrogate is not empty, and
    [fetchMovies] requests nothing for it. *)
Lemma fetchMovies_lone_surrogate_requests_nothing :
  [55296%N] <> []
  /\ requests (snd (fetchMovies quiet (Some [55296%N]) the_world)) = [].
Proof. split; [discriminate | reflexivity]. Qed.

Lemma fetchMovies_endpoint_witness :
  requests (snd (fetchMovies quiet None the_world))
  = [js "https://api.themoviedb.org/3/discover/movie?sort_by=popularity.desc"]
  /\ requests (snd (fetchMovies quiet (Some (js "star wars")) the_world))
     = [js "https://api.themoviedb.org/3/search/movie?query=star%20wars"]
  /\ errorMessage (snd (fetchMovies quiet (Some [55296%N]) the_world))
     = js "Error fetching movies. Please try again later.".
Proof.
  split; [|split].
  - exact (proj1 (fetchMovies_endpoint quiet None the_world) (or_introl eq_refl)).
  - exact (proj1 (proj2 (fetchMovies_endpoint quiet (Some (js "star wars")) the_world))
             (js "star wars") eq_refl ltac:(discriminate) eq_refl
             ltac:(repeat constructor)).
  - exact (proj2 (proj2 (proj2 (fetchMovies_endpoint quiet (Some [55296%N]) the_world))
                   [55296%N] eq_refl ltac:(discriminate) eq_refl)).
Defined.

Lemma fetchMovies_success (env : Env) (arg : option JsString) (w : World)
      (url : JsString) (d : Data) (l : list Movie) :
  endpoint_of (query_of arg) = Normal url ->
  transport env (clock w) url = Responds (mkResponse true (Json d)) ->
  strict_equal (TMDB.response d) (js "False") = false ->
  results d = Some l ->
  let w' := snd (fetchMovies env arg w) in
  fst (fetchMovies env arg w) = Normal tt
  /\ moviesList w' = l /\ errorMessage w' = js "" /\ isLoading w' = false.
Proof.
  intros Hend Hreply Hflag Hres w'. subst w'.
  rewrite (fetchMovies_listed env arg w Hend Hreply Hflag), Hres.
  repeat split.
Qed.

Lemma fetchMovies_popular_without_results (env : Env) (arg : option JsString) (w : World)
      (url : JsString) (d : Data) :
  query_of arg = [] ->
  endpoint_of (query_of arg) = Normal url ->
  transport env (clock w) url = Responds (mkResponse true (Json d)) ->
  strict_equal (TMDB.response d) (js "False") = false ->
  results d = None ->
  let w' := snd (fetchMovies env arg w) in
  fst (fetchMovies env arg w) = Normal tt
  /\ moviesList w' = [] /\ errorMessage w' = js "" /\ isLoading w' = false.
Proof.
  intros Hq Hend Hreply Hflag Hres w'. subst w'.
  rewrite (fetchMovies_listed env arg w Hend Hreply Hflag), Hres, Hq.
  repeat split.
Qed.

Lemma fetchMovies_search_without_results (env : Env) (arg : option JsString) (w : World)
      (url : JsString) (d : Data) :
  query_of arg <> [] ->
  endpoint_of (query_of arg) = Normal url ->
  transport env (clock w) url = Responds (mkResponse true (Json d)) ->
  strict_equal (TMDB.response d) (js "False") = false ->
  results d = None ->
  let w' := snd (fetchMovies env arg w) in
  moviesList w' = []
  /\ errorMessage w' = try_again_later
  /\ console w' = console w ++ [caught length_of_undefined].
Proof.
  intros Hq Hend Hreply Hflag Hres w'. subst w'.
  apply truthy_iff in Hq.
  rewrite (fetchMovies_listed env arg w Hend Hreply Hflag), Hres, Hq.
  repeat split.
Qed.

(** C7, at the input where the code departs from it. The search for
    [dune] is answered with a success status and the body [{}]: no
    failure signal and no [results] field. The list is set to the empty
    list, then reading [data.results.length] throws, and the run ends with
    the error message set. *)
Theorem fetchMovies_search_body_without_results :
  let env := answering (mkResponse true (Json (mkData None None None))) in
  let w' := snd (fetchMovies env (Some (js "dune")) the_world) in
  requests w' = [js "https://api.themoviedb.org/3/search/movie?query=dune"]
  /\ moviesList w' = []
  /\ errorMessage w' = js "Error fetching movies. Please try again later."
  /\ errorMessage w' <> js ""
  /\ console w'
     = [console_log_text
          (js "Error fetching movies: TypeError: Cannot read properties of undefined (reading 'length')")].
Proof.
  intros env w'.
  assert (Hq : query_of (Some (js "dune")) <> []) by discriminate.
  destruct (@fetchMovies_search_without_results env (Some (js "dune")) the_world
              (js "https://api.themoviedb.org/3/search/movie?query=dune")
              (mkData None None None) Hq eq_refl eq_refl eq_refl eq_refl)
    as (Hlist & Hmsg & Hlog).
  fold w' in Hlist, Hmsg, Hlog.
  split; [reflexivity|]. split; [exact Hlist|]. split; [exact Hmsg|].
  split; [rewrite Hmsg; discriminate | exact Hlog].
Qed.

(** C8, as the code has it. No run of [fetchMovies] throws. When the
    transport answers the endpoint's request with a status outside the
    success range, the run ends with the error message
    [Error fetching movies. Please try again later.], the spinner off and
    the list as it was; the [Failed to fetch movies] error thrown on the
    way is caught and written to the console only. *)
Theorem fetchMovies_bad_status (env : Env) (arg : option JsString) (w : World) :
  let w' := snd (fetchMovies env arg w) in
  fst (fetchMovies env arg w) = Normal tt
  /\ (forall url r,
         endpoint_of (query_of arg) = Normal url ->
         transport env (clock w) url = Responds r ->
         ok r = false ->
         errorMessage w' = js "Error fetching movies. Please try again later."
         /\ isLoading w' = false
         /\ moviesList w' = moviesList w
         /\ console w'
            = console w
              ++ [console_log_text (js "Error fetching movies: Error: Failed to fetch movies")]).
Proof.
  intros w'. split; [apply fetchMovies_always|].
  intros url r Hend Hreply Hok.
  assert (Hfail : fetch_fails (transport env (clock w) url) = true).
  { rewrite Hreply. cbn [fetch_fails]. now rewrite Hok. }
  subst w'. rewrite (fetchMovies_request_fails env arg w Hend Hfail).
  rewrite Hreply. cbn [failure_of]. rewrite Hok. repeat split.
Qed.

(** A 503 answer to the search for [dune], and to the popular-movies
    request: the message of the error state is not [Failed to fetch
    movies], in either spelling. *)
Lemma fetchMovies_bad_status_message :
  let env := answering (mkResponse false (BadJson offline)) in
  let searched := snd (fetchMovies env (Some (js "dune")) the_world) in
  let popular := snd (fetchMovies env None the_world) in
  errorMessage searched <> js "failed to fetch movies"
  /\ errorMessage searched <> js "Failed to fetch movies"
  /\ errorMessage popular <> js "failed to fetch movies"
  /\ errorMessage popular <> js "Failed to fetch movies".
Proof. repeat split; discriminate. Qed.

Lemma fetchMovies_bad_status_witness :
  let env := answering (mkResponse false (BadJson offline)) in
  errorMessage (snd (fetchMovies env (Some (js "dune")) the_world))
  = js "Error fetching movies. Please try again later.".
Proof.
  intros env.
  exact (proj1 (proj2 (fetchMovies_bad_status env (Some (js "dune")) the_world)
                  (js "https://api.themoviedb.org/3/search/movie?query=dune")
                  (mkResponse false (BadJson offline)) eq_refl eq_refl eq_refl)).
Defined.

(** C10. When the request of [fetchMovies] is rejected, is answered with a
    status outside the success range, or is answered with a body that is
    not JSON, the movies list is what it was before the call; the error
    message is set, the spinner is off, and the collection is untouched. *)
Theorem fetchMovies_failure_keeps_list (env : Env) (arg : option JsString) (w : World) :
  (forall url, endpoint_of (query_of arg) = Normal url ->
               fetch_fails (transport env (clock w) url) = true) ->
  let w' := snd (fetchMovies env arg w) in
  moviesList w' = moviesList w
  /\ errorMessage w' = js "Error fetching movies. Please try again later."
  /\ isLoading w' = false
  /\ collection w' = collection w.
Proof.
  intros Hfail w'. subst w'.
  destruct (endpoint_of (query_of arg)) as [url|e] eqn:Hend.
  - rewrite (fetchMovies_request_fails env arg w Hend (Hfail url eq_refl)).
    repeat split.
  - rewrite (fetchMovies_no_endpoint env arg w Hend). repeat split.
Qed.

(** ** Concrete runs *)

Example encodeURI_dune : encodeURI (js "dune") = Normal (js "dune").
Proof. reflexivity. Qed.

Example encodeURI_space : encodeURI (js "star wars") = Normal (js "star%20wars").
Proof. reflexivity. Qed.

Example encodeURI_e_acute : encodeURI [233%N] = Normal (js "%C3%A9").
Proof. reflexivity. Qed.

Example encodeURI_emoji :
  encodeURI [55357%N; 56832%N] = Normal (js "%F0%9F%98%80").
Proof. reflexivity. Qed.

Example encodeURI_reserved : encodeURI (js "fast & furious") = Normal (js "fast%20&%20furious").
Proof. reflexivity. Qed.

Example encodeURI_lone_surrogate : encodeURI [55296%N] = Throw URIError.
Proof. reflexivity. Qed.

Example poster_url_without_poster :
  poster_url (first_record quiet the_world (js "dune") (mkMovie 1 (js "Dune") None))
  = js "https://image.tmdb.org/t/p/w500null".
Proof. reflexivity. Qed.


Lemma recordSearches_one_record_per_term_witness :
  one_record_per_term
    (collection
       (snd (recordSearches quiet
               [(js "dune", dune); (js "alien", dune); (js "dune", dune)]
               (tracking [dune_record])))).
Proof.
  apply recordSearches_one_record_per_term.
  constructor; [intros [] | constructor].
Defined.

Lemma getTrendingMovies_top_five_witness :
  exists top,
    fst (getTrendingMovies quiet (tracking six_records)) = Normal (array top)
    /\ map count top = [5; 4; 3; 2; 1]%Z.
Proof.
  destruct (@getTrendingMovies_top_five quiet (tracking six_records) eq_refl)
    as (top & others & Hret & _ & _ & _ & _ & _ & _ & Hcounts).
  exists top. split; [exact Hret | exact (Hcounts eq_refl)].
Defined.

Lemma updateSearchCount_swallows_failures_witness :
  let run := updateSearchCount store_down (js "dune") dune (tracking [dune_record]) in
  fst run = Normal tt
  /\ console (snd run) = [console_log_error unavailable]
  /\ collection (snd run) = [dune_record].
Proof.
  intros run.
  destruct (updateSearchCount_swallows_failures store_down (js "dune") dune
              (tracking [dune_record])) as (Hres & _ & _ & _ & _ & Hlookup & _).
  destruct (Hlookup unavailable eq_refl) as [Hlog Hdocs].
  split; [exact Hres | split; [exact Hlog | exact Hdocs]].
Defined.

Lemma getTrendingMovies_failure_is_undefined_witness :
  fst (getTrendingMovies store_down (tracking six_records)) = Normal undefined
  /\ fst (getTrendingMovies quiet (tracking [])) = Normal (array []).
Proof.
  destruct (@getTrendingMovies_failure_is_undefined store_down (tracking six_records)
              unavailable eq_refl) as (Hret & _ & _ & _ & Hempty).
  split; [exact Hret | exact (Hempty quiet (tracking []) eq_refl eq_refl)].
Defined.

Lemma updateSearchCount_increment_frame_witness :
  map frame
      (collection (snd (updateSearchCount quiet (js "dune") dune (tracking [dune_record]))))
  = [frame dune_record].
Proof.
  apply (@updateSearchCount_increment_frame quiet (js "dune") dune (tracking [dune_record])).
  discriminate.
Defined.

Lemma fetchMovies_failure_keeps_list_witness :
  moviesList (snd (fetchMovies quiet (Some (js "dune")) (showing [dune]))) = [dune]
  /\ moviesList
       (snd (fetchMovies (answering (mkResponse false (BadJson offline))) None (showing [dune])))
     = [dune]
  /\ moviesList
       (snd (fetchMovies (answering (mkResponse true (BadJson offline))) None (showing [dune])))
     = [dune].
Proof.
  split; [|split].
  - apply (@fetchMovies_failure_keeps_list quiet (Some (js "dune")) (showing [dune])).
    intros url _. reflexivity.
  - apply (@fetchMovies_failure_keeps_list
             (answering (mkResponse false (BadJson offline))) None (showing [dune])).
    intros url _. reflexivity.
  - apply (@fetchMovies_failure_keeps_list
             (answering (mkResponse true (BadJson offline))) None (showing [dune])).
    intros url _. reflexivity.
Defined.

(** * Beyond the claims *)

(** ** The life of a record *)

Lemma map_frame_ids (l1 l2 : list Document) :
  map frame l1 = map frame l2 -> map dollar_id l1 = map dollar_id l2.
Proof.
  intros H.
  assert (E : forall l, map dollar_id l = map (fun t => fst (fst (fst t))) (map frame l)).
  { intros l. rewrite map_map. reflexivity. }
  rewrite (E l1), (E l2), H. reflexivity.
Qed.

Lemma updateSearchCount_keeps_ids (env : Env) (term : JsString) (movie : Movie) (w : World) :
  distinct_ids (collection w) ->
  distinct_ids (collection (snd (updateSearchCount env term movie w))).
Proof.
  intros Hids.
  destruct (updateSearchCount_run env term movie w)
    as (docs & logs & ticks & Hrun & [[Hdocs _] | [[_ (d & rest & _ & Hdocs)] | (_ & _ & Hfresh & Hdocs)]]);
    rewrite Hrun; cbn [snd collection]; subst docs.
  - assumption.
  - unfold distinct_ids, count_patch.
    rewrite (map_frame_ids _ _ (update_count_frame _ _ _)). assumption.
  - apply distinct_ids_snoc; assumption.
Qed.

Lemma first_record_for (term : JsString) (docs rest : list Document) (d : Document) :
  records_for term docs = d :: rest ->
  searchTerm d = term /\ exists pre post, docs = pre ++ d :: post.
Proof.
  intros Hrec.
  assert (Hin : In d (records_for term docs)) by (rewrite Hrec; now left).
  apply filter_In in Hin as [Hin Hterm]. apply eqb_eq in Hterm.
  split; [assumption|]. apply in_split in Hin as (pre & post & ->). eauto.
Qed.

Lemma updateSearchCount_step
      (env : Env) (term : JsString) (movie : Movie) (w : World) :
  distinct_ids (collection w) ->
  let docs' := collection (snd (updateSearchCount env term movie w)) in
  docs' = collection w
  \/ (exists pre d post,
         collection w = pre ++ d :: post
         /\ searchTerm d = term
         /\ docs' = pre ++ recounted d :: post
         /\ ((Z.abs (count d) < 2 ^ 53)%Z -> recounted d = incremented d))
  \/ (records_for term (collection w) = []
      /\ docs' = collection w ++ [first_record env w term movie]).
Proof.
  intros Hids docs'. subst docs'.
  destruct (updateSearchCount_run env term movie w)
    as (docs & logs & ticks & Hrun & [[Hdocs _] | [[_ (d & rest & Hrec & Hdocs)] | (_ & Hrec & _ & Hdocs)]]);
    rewrite Hrun; cbn [snd collection]; subst docs.
  - now left.
  - right; left.
    destruct (first_record_for _ _ Hrec) as (Hterm & pre & post & Hsplit).
    exists pre, d, post. split; [assumption|]. split; [assumption|]. split.
    + rewrite Hsplit in Hids |- *. unfold count_patch.
      now rewrite (update_count_at pre post d Hids).
    + apply recounted_exact.
  - right; right. now split.
Qed.


Lemma Forall2_kept_refl (l : list Document) : Forall2 kept l l.
Proof. induction l; constructor; [split; [reflexivity | lia] | assumption]. Qed.

Lemma Forall2_kept_trans (l1 l2 l3 : list Document) :
  Forall2 kept l1 l2 -> Forall2 kept l2 l3 -> Forall2 kept l1 l3.
Proof.
  intros H12. revert l3. induction H12 as [|a b l1 l2 [Hf Hc] _ IH]; intros l3 H23.
  - inversion H23. constructor.
  - inversion H23 as [|b' c l2' l3' [Hf' Hc'] Hrest]; subst.
    constructor; [split; [congruence | lia] | now apply IH].
Qed.

Lemma grows_refl (docs : list Document) : grows docs docs.
Proof.
  exists docs, []. split; [now rewrite app_nil_r | apply Forall2_kept_refl].
Qed.

Lemma grows_trans (l1 l2 l3 : list Document) :
  grows l1 l2 -> grows l2 l3 -> grows l1 l3.
Proof.
  intros (c1 & a1 & -> & H1) (c2 & a2 & -> & H2).
  apply Forall2_app_inv_l in H2 as (c1' & a1' & Hc & _ & ->).
  exists c1', (a1' ++ a2). split; [now rewrite app_assoc|].
  eapply Forall2_kept_trans; eassumption.
Qed.

Lemma updateSearchCount_grows (env : Env) (term : JsString) (movie : Movie) (w : World) :
  distinct_ids (collection w) ->
  numbers (collection w) ->
  grows (collection w) (collection (snd (updateSearchCount env term movie w))).
Proof.
  intros Hids Hnum.
  destruct (updateSearchCount_step env term movie w Hids)
    as [-> | [(pre & d & post & Hdocs & _ & -> & _) | (_ & ->)]].
  - apply grows_refl.
  - rewrite Hdocs. exists (pre ++ recounted d :: post), [].
    split; [now rewrite app_nil_r|].
    apply Forall2_app; [apply Forall2_kept_refl|].
    constructor; [|apply Forall2_kept_refl].
    split; [reflexivity|]. cbn [recounted count].
    apply number_add_one_le.
    unfold numbers in Hnum. rewrite Hdocs, Forall_app, Forall_cons_iff in Hnum.
    tauto.
  - exists (collection w), [first_record env w term movie].
    split; [reflexivity | apply Forall2_kept_refl].
Qed.

Lemma updateSearchCount_keeps_numbers
      (env : Env) (term : JsString) (movie : Movie) (w : World) :
  distinct_ids (collection w) ->
  numbers (collection w) ->
  numbers (collection (snd (updateSearchCount env term movie w))).
Proof.
  intros Hids Hnum.
  destruct (updateSearchCount_step env term movie w Hids)
    as [-> | [(pre & d & post & Hdocs & _ & -> & _) | (_ & ->)]].
  - assumption.
  - unfold numbers in *. rewrite Hdocs in Hnum.
    rewrite Forall_app, Forall_cons_iff in Hnum |- *.
    destruct Hnum as (Hpre & _ & Hpost). repeat split; try assumption.
    cbn [recounted count]. apply nearest_double_idem.
  - unfold numbers in *. rewrite Forall_app. split; [assumption|].
    constructor; [reflexivity | constructor].
Qed.

(** X2. Over any sequence of awaited calls, whatever the store and the
    identifier source do, a collection whose counts are JavaScript numbers
    only grows: every record that was there is still there, at its place,
    with the same identifier, term, movie and poster and a count that is
    not lower; new records come after the old ones; identifiers stay
    unique and counts stay numbers. *)
Theorem recordSearches_grows
        (env : Env) (searches : list (JsString * Movie)) (w : World) :
  distinct_ids (collection w) ->
  numbers (collection w) ->
  let docs' := collection (snd (recordSearches env searches w)) in
  grows (collection w) docs' /\ distinct_ids docs' /\ numbers docs'.
Proof.
  revert w. induction searches as [|[term movie] rest IH];
    intros w Hids Hnum docs'; subst docs'.
  - split; [apply grows_refl | split; assumption].
  - cbn [recordSearches]. unfold bind.
    pose proof (updateSearchCount_grows env term movie w Hids Hnum) as Hstep.
    pose proof (updateSearchCount_keeps_ids env term movie w Hids) as Hids'.
    pose proof (updateSearchCount_keeps_numbers env term movie w Hids Hnum) as Hnum'.
    pose proof (updateSearchCount_resolves env term movie w) as Hres.
    destruct (updateSearchCount env term movie w) as [[[]|e] w'];
      cbn [fst snd] in *; [|discriminate].
    destruct (IH w' Hids' Hnum') as (Hrest & Hfinal & Hnumbers).
    split; [eapply grows_trans; eassumption | split; assumption].
Qed.

(** Why the counts have to be numbers. A count of 2^54 + 1 is not one;
    the sum with 1, 2^54 + 2, lies halfway between the doubles 2^54 and
    2^54 + 4 and goes to the even one, 2^54, which is lower. *)
Lemma recordSearches_lowers_unreadable_count :
  let docs' := collection
                 (snd (recordSearches quiet [(js "dune", dune)] (tracking [unreadable_record]))) in
  distinct_ids [unreadable_record]
  /\ map count docs' = [(2 ^ 54)%Z]
  /\ ~ grows [unreadable_record] docs'.
Proof.
  intros docs'.
  assert (Hdocs : docs' = [mkDocument (js "doc-1") (js "dune") (2 ^ 54) 438631 (js "/p.jpg")])
    by reflexivity.
  split; [constructor; [intros [] | constructor]|].
  split; [now rewrite Hdocs|].
  rewrite Hdocs. intros (changed & added & Heq & Hkept).
  inversion Hkept as [|a b l1 l2 [_ Hcount] Hrest]; subst.
  inversion Hrest; subst. cbn [app] in Heq. injection Heq as <- _.
  cbn in Hcount. lia.
Qed.

Lemma recordSearches_grows_witness :
  let docs' := collection
                 (snd (recordSearches quiet
                         [(js "dune", dune); (js "alien", dune); (js "dune", dune)]
                         (tracking [dune_record]))) in
  grows [dune_record] docs' /\ distinct_ids docs' /\ numbers docs'.
Proof.
  apply (@recordSearches_grows quiet
           [(js "dune", dune); (js "alien", dune); (js "dune", dune)]
           (tracking [dune_record])).
  - constructor; [intros [] | constructor].
  - constructor; [reflexivity | constructor].
Defined.


(** ** Two calls at once *)

(** The two halves, run one after the other, are the call. *)
Lemma updateSearchCount_halves (env : Env) (term : JsString) (movie : Movie) (w : World) :
  updateSearchCount env term movie w
  = (answer <- first_half env term ;; second_half env term movie answer) w.
Proof.
  unfold updateSearchCount, first_half, second_half, try_catch, bind, listDocuments, request.
  destruct (store_fault env (clock w)); reflexivity.
Qed.

(** X3. Two calls for one term whose lookups are both answered before
    either writes, on a collection without a record of the term and with
    the store answering: each call creates a record, so the term ends with
    two records of count 1 and the invariant of the data model is broken.
    (Run one after the other, the same two calls leave one record of
    count 2.) *)
Theorem overlapped_calls_duplicate
        (env : Env) (term : JsString) (movie1 movie2 : Movie) (w : World) :
  (forall n, store_fault env n = None) ->
  records_for term (collection w) = [] ->
  ~ In (unique env (2 + clock w)) (map dollar_id (collection w)) ->
  ~ In (unique env (3 + clock w)) (map dollar_id (collection w)) ->
  unique env (2 + clock w) <> unique env (3 + clock w) ->
  let docs' := collection (snd (overlapped env term movie1 movie2 w)) in
  docs' = collection w
          ++ [mkDocument (unique env (2 + clock w)) term 1 (id movie1)
                         (poster_template ++ to_string (poster_path movie1));
              mkDocument (unique env (3 + clock w)) term 1 (id movie2)
                         (poster_template ++ to_string (poster_path movie2))]
  /\ List.length (records_for term docs') = 2
  /\ ~ one_record_per_term docs'.
Proof.
  intros Hquiet Hrec Hfresh1 Hfresh2 Hdiff docs'.
  assert (Hdocs : docs' = collection w
          ++ [mkDocument (unique env (2 + clock w)) term 1 (id movie1)
                         (poster_template ++ to_string (poster_path movie1));
              mkDocument (unique env (3 + clock w)) term 1 (id movie2)
                         (poster_template ++ to_string (poster_path movie2))]).
  { subst docs'. cbn [Nat.add] in *.
    unfold overlapped, first_half, second_half, try_catch, bind, listDocuments, request, ret.
    cbn [clock collection]. rewrite !Hquiet. cbn [clock collection].
    rewrite select_by_term, Hrec.
    unfold default_limit, ID_unique, createDocument, request.
    cbn [firstn clock collection]. rewrite !Hquiet.
    unfold create at 1.
    destruct (existsb (has_id (unique env (S (S (clock w))))) (collection w)) eqn:H1.
    { apply existsb_has_id in H1. contradiction. }
    cbn [clock collection]. rewrite !Hquiet.
    unfold create.
    assert (H2 : existsb (has_id (unique env (S (S (S (clock w)))))) (collection w) = false).
    { destruct (existsb (has_id (unique env (S (S (S (clock w)))))) (collection w)) eqn:H;
        [|reflexivity].
      apply existsb_has_id in H. contradiction. }
    rewrite existsb_app, H2.
    cbn [existsb]. unfold has_id at 1. cbn [dollar_id].
    rewrite (proj2 (eqb_neq _ _) Hdiff). cbn.
    now rewrite <- app_assoc. }
  split; [exact Hdocs|]. rewrite Hdocs. split.
  - rewrite records_for_app, Hrec. unfold records_for.
    cbn [filter app searchTerm]. rewrite eqb_refl. reflexivity.
  - unfold one_record_per_term. rewrite map_app. cbn [map searchTerm].
    intros Hnd. apply NoDup_remove_2 in Hnd. apply Hnd.
    apply in_or_app. right. now left.
Qed.

Lemma overlapped_calls_duplicate_witness :
  let docs' := collection (snd (overlapped quiet (js "dune") dune dune the_world)) in
  List.length (records_for (js "dune") docs') = 2 /\ ~ one_record_per_term docs'.
Proof.
  destruct (@overlapped_calls_duplicate quiet (js "dune") dune dune the_world
              (fun n => eq_refl) eq_refl (fun H => H) (fun H => H)
              ltac:(discriminate)) as (_ & Hlen & Hbroken).
  split; [exact Hlen | exact Hbroken].
Defined.

(** ** Reading the trending list *)

Lemma getTrendingMovies_run (env : Env) (w : World) :
  getTrendingMovies env w
  = match store_fault env (clock w) with
    | Some e =>
        (Normal undefined,
         mkWorld (moviesList w) (errorMessage w) (isLoading w) (collection w)
                 (console w ++ [console_error_error e]) (requests w) (S (clock w)))
    | None =>
        (Normal (array (firstn 5 (sort_desc (js "count") (collection w)))),
         mkWorld (moviesList w) (errorMessage w) (isLoading w) (collection w)
                 (console w) (requests w) (S (clock w)))
    end.
Proof.
  unfold getTrendingMovies, try_catch, bind, listDocuments, request.
  destruct (store_fault env (clock w)); [reflexivity|].
  rewrite select_trending. reflexivity.
Qed.

(** X4. [getTrendingMovies] never rejects and only reads: on every path
    it resolves, the collection and the state cells of [App] are as
    before, and exactly one request went to the store. It resolves to
    [undefined] exactly when the store access failed; otherwise to an array
    of records of the collection, and the console is as before. *)
Theorem getTrendingMovies_reads_only (env : Env) (w : World) :
  let w' := snd (getTrendingMovies env w) in
  (exists v, fst (getTrendingMovies env w) = Normal v
             /\ (v = undefined <-> store_fault env (clock w) <> None)
             /\ (forall docs, v = array docs -> incl docs (collection w)))
  /\ collection w' = collection w
  /\ moviesList w' = moviesList w
  /\ errorMessage w' = errorMessage w
  /\ isLoading w' = isLoading w
  /\ requests w' = requests w
  /\ clock w' = S (clock w)
  /\ (store_fault env (clock w) = None -> console w' = console w).
Proof.
  intros w'. subst w'. rewrite getTrendingMovies_run.
  destruct (store_fault env (clock w)) as [e|]; cbn [fst snd].
  - split; [|repeat split; discriminate].
    exists undefined. repeat split; try discriminate.
  - split; [|repeat split].
    eexists. split; [reflexivity|]. split.
    + split; [discriminate | intros H; now elim H].
    + intros docs [= <-] d Hd.
      eapply Permutation_in; [apply sort_desc_perm|].
      rewrite <- (firstn_skipn 5 (sort_desc _ _)). apply in_or_app. left. exact Hd.
Qed.

Lemma getTrendingMovies_reads_only_witness :
  console (snd (getTrendingMovies quiet (tracking six_records))) = [].
Proof.
  exact (proj2 (proj2 (proj2 (proj2 (proj2 (proj2 (proj2
           (getTrendingMovies_reads_only quiet (tracking six_records)))))))) eq_refl).
Defined.

Ltac run_loadTrendingMovies :=
  unfold loadTrendingMovies, try_finallyA, try_catchA, bindA, in_world,
    setIsTrendingLoading, setTrendingError, setTrendingMovies;
  cbn [world trendingMovies isTrendingLoading trendingError error_lines].

Lemma loadTrendingMovies_run (env : Env) (s : App) :
  loadTrendingMovies env s
  = (Normal tt,
     mkApp (snd (getTrendingMovies env (world s)))
           (match store_fault env (clock (world s)) with
            | Some _ => undefined
            | None => array (firstn 5 (sort_desc (js "count") (collection (world s))))
            end)
           false (js "") (error_lines s)).
Proof.
  run_loadTrendingMovies. rewrite getTrendingMovies_run.
  destruct (store_fault env (clock (world s))); reflexivity.
Qed.

(** X5. [loadTrendingMovies] never rejects and never reports an error:
    because [getTrendingMovies] swallows its own failure, the [catch]
    block of the loader is never entered. On every path the trending error
    is the empty string afterwards, the trending spinner is off, nothing
    was written by the loader's [console.error], and [trendingMovies] is
    whatever [getTrendingMovies] resolved to, [undefined] included. *)
Theorem loadTrendingMovies_never_reports (env : Env) (s : App) :
  let s' := snd (loadTrendingMovies env s) in
  fst (loadTrendingMovies env s) = Normal tt
  /\ trendingError s' = js ""
  /\ trendingError s' <> failed_to_load
  /\ isTrendingLoading s' = false
  /\ error_lines s' = error_lines s
  /\ fst (getTrendingMovies env (world s)) = Normal (trendingMovies s')
  /\ world s' = snd (getTrendingMovies env (world s)).
Proof.
  intros s'. subst s'. rewrite loadTrendingMovies_run. cbn [fst snd].
  repeat split; try discriminate.
  cbn [trendingMovies]. rewrite getTrendingMovies_run.
  destruct (store_fault env (clock (world s))); reflexivity.
Qed.

(** X6. When the store access fails while the trending list is loaded,
    the page does not show an error in the trending section: the loader
    stores [undefined], and rendering the section throws, on reading
    [length] of [undefined]. *)
Theorem trending_section_after_failed_load (env : Env) (s : App) (e : JsError) :
  store_fault env (clock (world s)) = Some e ->
  let s' := snd (loadTrendingMovies env s) in
  trendingMovies s' = undefined
  /\ trending_section s' = Throw length_of_undefined
  /\ console (world s') = console (world s) ++ [console_error_error e].
Proof.
  intros Hfault s'. subst s'. rewrite loadTrendingMovies_run.
  cbn [snd trendingMovies world]. rewrite getTrendingMovies_run, Hfault.
  repeat split.
Qed.

Lemma trending_section_after_failed_load_witness :
  trending_section (snd (loadTrendingMovies store_down (mounted (tracking six_records))))
  = Throw length_of_undefined.
Proof.
  exact (proj1 (proj2 (@trending_section_after_failed_load store_down
                         (mounted (tracking six_records)) unavailable eq_refl))).
Defined.

Lemma items_from_rank (i : nat) (docs : list Document) :
  map rank (items_from i docs) = seq (i + 1) (List.length docs).
Proof.
  revert i. induction docs as [|d docs IH]; intros i; cbn [items_from map List.length seq].
  - reflexivity.
  - rewrite IH. reflexivity.
Qed.

Lemma items_from_src (i : nat) (docs : list Document) :
  map src (items_from i docs) = map poster_url docs
  /\ map key (items_from i docs) = map dollar_id docs.
Proof.
  revert i. induction docs as [|d docs IH]; intros i; cbn [items_from map].
  - split; reflexivity.
  - destruct (IH (S i)) as [-> ->]. split; reflexivity.
Qed.

(** X7. When the store answers while the trending list is loaded, the
    trending section shows [No trending movies found.] exactly for an
    empty collection; otherwise it lists between one and five items,
    ranked 1, 2, ... in descending order of count, each with the poster
    URL and the identifier of its record. *)
Theorem trending_section_after_load (env : Env) (s : App) :
  store_fault env (clock (world s)) = None ->
  let s' := snd (loadTrendingMovies env s) in
  let top := firstn 5 (sort_desc (js "count") (collection (world s))) in
  (collection (world s) = [] -> trending_section s' = Normal NoTrendingMovies)
  /\ (collection (world s) <> [] ->
      exists items,
        trending_section s' = Normal (TrendingList items)
        /\ 1 <= List.length items <= 5
        /\ map rank items = seq 1 (List.length items)
        /\ map src items = map poster_url top
        /\ map key items = map dollar_id top
        /\ StronglySorted ranks_before top).
Proof.
  intros Hok s' top. subst s'. rewrite loadTrendingMovies_run, Hok.
  cbn [snd]. unfold trending_section.
  cbn [isTrendingLoading trendingError trendingMovies].
  change (truthy (js "")) with false. cbv iota.
  change (firstn 5 (sort_desc (js "count") (collection (world s)))) with top.
  split.
  - intros Hempty. unfold top. now rewrite Hempty.
  - intros Hdocs.
    assert (Htop : top <> []).
    { unfold top. intros H.
      destruct (sort_desc (js "count") (collection (world s))) as [|x l] eqn:Hs.
      - apply Hdocs. apply Permutation_nil. rewrite <- Hs.
        apply sort_desc_perm.
      - discriminate. }
    assert (Hsorted : StronglySorted ranks_before top).
    { pose proof (sort_desc_sorted (collection (world s))) as H.
      rewrite <- (firstn_skipn 5 (sort_desc _ _)) in H.
      now apply sorted_app_inv in H as [H _]. }
    destruct top as [|d rest] eqn:Etop; [contradiction|].
    exists (items_from 0 (d :: rest)). split; [reflexivity|].
    assert (Hlen : List.length (items_from 0 (d :: rest)) = List.length (d :: rest)).
    { rewrite <- (length_map rank), items_from_rank. apply length_seq. }
    destruct (items_from_src 0 (d :: rest)) as [Hsrc Hkey].
    repeat split; try assumption.
    + rewrite Hlen. cbn [List.length]. lia.
    + rewrite Hlen, <- Etop. apply firstn_le_length.
    + rewrite Hlen. apply items_from_rank.
Qed.

Lemma trending_section_after_load_witness :
  exists items,
    trending_section (snd (loadTrendingMovies quiet (mounted (tracking six_records))))
    = Normal (TrendingList items)
    /\ map rank items = [1; 2; 3; 4; 5].
Proof.
  destruct (proj2 (@trending_section_after_load quiet (mounted (tracking six_records))
                     eq_refl) ltac:(discriminate))
    as (items & Hview & _ & Hrank & Hsrc & _).
  exists items. split; [exact Hview|].
  rewrite Hrank. rewrite <- (length_map src), Hsrc. reflexivity.
Defined.

(** ** More of [fetchMovies] *)

Lemma updateSearchCount_shown (env : Env) (term : JsString) (movie : Movie) (w : World) :
  let w' := snd (updateSearchCount env term movie w) in
  moviesList w' = moviesList w /\ errorMessage w' = errorMessage w
  /\ isLoading w' = isLoading w /\ requests w' = requests w.
Proof.
  intros w'. subst w'.
  destruct (updateSearchCount_run env term movie w) as (docs & logs & ticks & Hrun & _).
  rewrite Hrun. repeat split.
Qed.

Lemma fetchMovies_shown (env : Env) (arg : option JsString) (w : World) :
  shown (snd (fetchMovies env arg w))
  = outcome arg (moviesList w) (transport env (clock w)).
Proof.
  unfold outcome.
  destruct (endpoint_of (query_of arg)) as [url|e] eqn:Hend.
  2: { now rewrite (fetchMovies_no_endpoint env arg w Hend). }
  destruct (fetch_fails (transport env (clock w) url)) eqn:Hfail.
  { rewrite (fetchMovies_request_fails env arg w Hend Hfail).
    destruct (transport env (clock w) url) as [e | [[|] [e | d]]];
      cbn in Hfail; try discriminate; reflexivity. }
  destruct (transport env (clock w) url) as [e | [[|] [e | d]]] eqn:Hreply;
    cbn in Hfail; try discriminate.
  cbn [ok body negb].
  destruct (strict_equal (TMDB.response d) (js "False")) eqn:Hflag.
  { now rewrite (fetchMovies_flagged env arg w Hend Hreply Hflag). }
  rewrite (fetchMovies_listed env arg w Hend Hreply Hflag).
  destruct (results d) as [l|]; [reflexivity|].
  destruct (truthy (query_of arg)); reflexivity.
Qed.

(** X8. What [fetchMovies] leaves on the page does not depend on the
    document store: two runs with the same argument, the same list shown
    before and the same answer of the transport end with the same list, the
    same error message and the spinner off, whatever the two stores hold,
    however they fail and whatever identifiers they hand out. *)
Theorem fetchMovies_page_ignores_store
        (env1 env2 : Env) (arg : option JsString) (w1 w2 : World) :
  (forall url, transport env1 (clock w1) url = transport env2 (clock w2) url) ->
  moviesList w1 = moviesList w2 ->
  shown (snd (fetchMovies env1 arg w1)) = shown (snd (fetchMovies env2 arg w2)).
Proof.
  intros Hreply Hlist. rewrite !fetchMovies_shown, Hlist. unfold outcome.
  destruct (endpoint_of (query_of arg)); [|reflexivity].
  now rewrite Hreply.
Qed.

Lemma fetchMovies_page_ignores_store_witness :
  shown (snd (fetchMovies finding_store_down (Some (js "dune")) (tracking [dune_record])))
  = shown (snd (fetchMovies (answering (finding [dune])) (Some (js "dune")) the_world)).
Proof.
  apply fetchMovies_page_ignores_store; [intros url|]; reflexivity.
Defined.

(** X9. A success response whose body has [response === 'False'] is
    turned into an error: the list is emptied, the error message is the
    body's [Error] text, or [Failed to fetch movies] when the field is
    missing, [null] or the empty text, so it is never empty; nothing is
    written to the console and the store is not asked anything. *)
Theorem fetchMovies_flagged_body
        (env : Env) (arg : option JsString) (w : World) (url : JsString) (d : Data) :
  endpoint_of (query_of arg) = Normal url ->
  transport env (clock w) url = Responds (mkResponse true (Json d)) ->
  TMDB.response d = Some (js "False") ->
  let w' := snd (fetchMovies env arg w) in
  moviesList w' = []
  /\ errorMessage w' <> []
  /\ (forall text, Error d = Some text -> text <> [] -> errorMessage w' = text)
  /\ (Error d = None \/ Error d = Some [] -> errorMessage w' = js "Failed to fetch movies")
  /\ all_movies_section w' = ErrorText (errorMessage w')
  /\ console w' = console w
  /\ collection w' = collection w
  /\ clock w' = S (clock w).
Proof.
  intros Hend Hreply Hflag w'. subst w'.
  assert (Hstrict : strict_equal (TMDB.response d) (js "False") = true)
    by now rewrite Hflag.
  rewrite (fetchMovies_flagged env arg w Hend Hreply Hstrict).
  cbn [snd moviesList errorMessage console collection clock].
  assert (Hne : or_else (Error d) (js "Failed to fetch movies") <> []).
  { unfold or_else. destruct (Error d) as [[|c text]|]; discriminate. }
  repeat split; try assumption.
  - intros text -> Htext. unfold or_else. apply truthy_iff in Htext. now rewrite Htext.
  - intros [-> | ->]; reflexivity.
  - unfold all_movies_section. cbn [isLoading errorMessage].
    apply truthy_iff in Hne. now rewrite Hne.
Qed.

Lemma fetchMovies_flagged_body_witness :
  errorMessage (snd (fetchMovies (answering (flagged_body (Some (js "Movie not found!"))))
                                 (Some (js "dune")) (showing [dune])))
  = js "Movie not found!"
  /\ errorMessage (snd (fetchMovies (answering (flagged_body None)) None (showing [dune])))
     = js "Failed to fetch movies".
Proof.
  split.
  - exact (proj1 (proj2 (proj2
             (@fetchMovies_flagged_body
                (answering (flagged_body (Some (js "Movie not found!"))))
                (Some (js "dune")) (showing [dune])
                (js "https://api.themoviedb.org/3/search/movie?query=dune")
                (mkData (Some (js "False")) (Some (js "Movie not found!")) (Some [dune]))
                eq_refl eq_refl eq_refl)))
           (js "Movie not found!") eq_refl ltac:(discriminate)).
  - exact (proj1 (proj2 (proj2 (proj2
             (@fetchMovies_flagged_body
                (answering (flagged_body None)) None (showing [dune])
                (js "https://api.themoviedb.org/3/discover/movie?sort_by=popularity.desc")
                (mkData (Some (js "False")) None (Some [dune]))
                eq_refl eq_refl eq_refl))))
           (or_introl eq_refl)).
Defined.

(** X10. [fetchMovies] writes to the document store only for a search
    that found something: if the collection is not what it was, then the
    query was not empty, the answer was a success whose body had no
    failure flag and a non-empty [results] list, and what happened to the
    collection is what [updateSearchCount] does for the query text and the
    first result. The popular listing, empty result pages and failed
    requests are never recorded. *)
Theorem fetchMovies_records_only_hits (env : Env) (arg : option JsString) (w : World) :
  let w' := snd (fetchMovies env arg w) in
  collection w' <> collection w ->
  query_of arg <> []
  /\ exists url d first rest,
       endpoint_of (query_of arg) = Normal url
       /\ transport env (clock w) url = Responds (mkResponse true (Json d))
       /\ strict_equal (TMDB.response d) (js "False") = false
       /\ results d = Some (first :: rest)
       /\ collection w'
          = collection (snd (updateSearchCount env (query_of arg) first
                                               (listed w url (first :: rest)))).
Proof.
  intros w' Hchanged. subst w'.
  destruct (endpoint_of (query_of arg)) as [url|e] eqn:Hend.
  2: { rewrite (fetchMovies_no_endpoint env arg w Hend) in Hchanged. now elim Hchanged. }
  destruct (fetch_fails (transport env (clock w) url)) eqn:Hfail.
  { rewrite (fetchMovies_request_fails env arg w Hend Hfail) in Hchanged.
    now elim Hchanged. }
  destruct (transport env (clock w) url) as [e | [[|] [e | d]]] eqn:Hreply;
    cbn in Hfail; try discriminate.
  destruct (strict_equal (TMDB.response d) (js "False")) eqn:Hflag.
  { rewrite (fetchMovies_flagged env arg w Hend Hreply Hflag) in Hchanged.
    now elim Hchanged. }
  rewrite (fetchMovies_listed env arg w Hend Hreply Hflag) in Hchanged |- *.
  destruct (results d) as [[|first rest]|] eqn:Hres;
    destruct (truthy (query_of arg)) eqn:Hq;
    try (now elim Hchanged).
  split; [now apply truthy_iff|].
  exists url, d, first, rest. repeat split; assumption.
Qed.

Lemma fetchMovies_records_only_hits_witness :
  exists d first rest,
    transport (answering (finding [dune])) 0
              (js "https://api.themoviedb.org/3/search/movie?query=dune")
    = Responds (mkResponse true (Json d))
    /\ results d = Some (first :: rest).
Proof.
  destruct (@fetchMovies_records_only_hits (answering (finding [dune]))
              (Some (js "dune")) the_world ltac:(discriminate))
    as (_ & url & d & first & rest & Hend & Hreply & _ & Hres & _).
  injection Hend as <-. exists d, first, rest. split; [exact Hreply | exact Hres].
Defined.

(** X11. A search that finds something is recorded, and shows up as
    trending. With the store answering, identifiers unique and no record
    of the query yet: after [fetchMovies(q)] the page lists the results and
    the collection has one more record, for the query text as typed, with
    count 1 and the id and poster of the first result; after the same
    search again that record has count 2 and there is still one; and on a
    collection that was empty, [getTrendingMovies] then returns exactly
    that record. *)
Theorem search_is_recorded
        (env : Env) (q url : JsString) (d : Data) (first : Movie) (rest : list Movie)
        (w : World) :
  q <> [] ->
  endpoint_of q = Normal url ->
  (forall n, transport env n url = Responds (mkResponse true (Json d))) ->
  strict_equal (TMDB.response d) (js "False") = false ->
  results d = Some (first :: rest) ->
  (forall n, store_fault env n = None) ->
  distinct_ids (collection w) ->
  records_for q (collection w) = [] ->
  ~ In (unique env (2 + clock w)) (map dollar_id (collection w)) ->
  let record := mkDocument (unique env (2 + clock w)) q 1 (id first)
                           (poster_template ++ to_string (poster_path first)) in
  let w1 := snd (fetchMovies env (Some q) w) in
  let w2 := snd (fetchMovies env (Some q) w1) in
  moviesList w1 = first :: rest
  /\ errorMessage w1 = js ""
  /\ collection w1 = collection w ++ [record]
  /\ collection w2 = collection w ++ [incremented record]
  /\ count (incremented record) = 2%Z
  /\ (collection w = [] ->
      fst (getTrendingMovies env w2) = Normal (array [incremented record])).
Proof.
  intros Hq Hend Hreply Hflag Hres Hquiet Hids Hrec Hfresh record w1 w2.
  assert (Htruthy : truthy q = true) by now apply truthy_iff.
  assert (H1 : w1 = mkWorld (first :: rest) (js "") false (collection w ++ [record])
                            (console w) (requests w ++ [url]) (S (S (S (clock w))))).
  { subst w1.
    rewrite (@fetchMovies_listed env (Some q) w url d Hend (Hreply _) Hflag), Hres.
    cbn [query_of]. rewrite Htruthy.
    rewrite (@updateSearchCount_created env q first (listed w url (first :: rest)));
      auto. }
  assert (H2 : collection w2 = collection w ++ [incremented record]).
  { subst w2. rewrite H1.
    rewrite (@fetchMovies_listed env (Some q) _ url d Hend (Hreply _) Hflag), Hres.
    cbn [query_of]. rewrite Htruthy. cbn [snd collection].
    rewrite (@updateSearchCount_found env q first _ (collection w) [] record); auto.
    apply distinct_ids_snoc; assumption. }
  rewrite H1. cbn [moviesList errorMessage collection].
  repeat split; try assumption.
  intros Hempty. rewrite getTrendingMovies_answer by apply Hquiet.
  rewrite H2, Hempty. reflexivity.
Qed.

Lemma search_is_recorded_witness :
  let env := answering (finding [dune]) in
  let w1 := snd (fetchMovies env (Some (js "dune")) the_world) in
  let w2 := snd (fetchMovies env (Some (js "dune")) w1) in
  map count (collection w1) = [1%Z]
  /\ exists top, fst (getTrendingMovies env w2) = Normal (array top)
                 /\ map count top = [2%Z].
Proof.
  intros env w1 w2.
  destruct (@search_is_recorded env (js "dune")
              (js "https://api.themoviedb.org/3/search/movie?query=dune")
              (mkData None None (Some [dune])) dune [] the_world
              ltac:(discriminate) eq_refl (fun n => eq_refl) eq_refl eq_refl
              (fun n => eq_refl) (NoDup_nil _) eq_refl (fun H => H))
    as (_ & _ & H1 & _ & _ & Htrend).
  split.
  - unfold w1. rewrite H1. reflexivity.
  - eexists. split; [exact (Htrend eq_refl) | reflexivity].
Defined.

(** X12. The [fetchMovies] of the first [App] and the current one agree
    when there is no query: called without an argument, or with the empty
    string, the current function does exactly what the first one did, in
    every environment and from every world. *)
Theorem fetchMovies_without_query_is_v1 (env : Env) (w : World) :
  fetchMovies env None w = fetchMovies_v1 env w
  /\ fetchMovies env (Some []) w = fetchMovies_v1 env w.
Proof.
  split.
  - unfold fetchMovies, fetchMovies_v1, try_finally, try_catch, bind, lift, fetch, json.
    cbn [query_of endpoint_of truthy js map list_ascii_of_string].
    fold discover_url.
    destruct (transport env (clock w) discover_url) as [e | [[|] [e | d]]];
      cbn [ok body negb]; reflexivity.
  - unfold fetchMovies, fetchMovies_v1, try_finally, try_catch, bind, lift, fetch, json.
    cbn [query_of endpoint_of truthy].
    fold discover_url.
    destruct (transport env (clock w) discover_url) as [e | [[|] [e | d]]];
      cbn [ok body negb]; reflexivity.
Qed.

(** ** The request URL *)

Lemma unescaped_printable (c : N) : unescaped c = true -> (32 < c < 127)%N.
Proof.
  unfold unescaped, in_range. rewrite !orb_true_iff, !andb_true_iff, !N.leb_le.
  intros [[[[[H | H] | H] | H] | H] | H]; try lia.
  - unfold mem in H. apply existsb_exists in H as (x & Hin & Hx).
    apply N.eqb_eq in Hx. subst x. vm_compute in Hin.
    repeat (destruct Hin as [<- | Hin]; [lia|]). destruct Hin.
  - unfold mem in H. apply existsb_exists in H as (x & Hin & Hx).
    apply N.eqb_eq in Hx. subst x. vm_compute in Hin.
    repeat (destruct Hin as [<- | Hin]; [lia|]). destruct Hin.
  - apply N.eqb_eq in H. lia.
Qed.

Lemma uri_char_printable (c : N) : uri_char c = true -> (32 < c < 127)%N.
Proof.
  unfold uri_char. rewrite orb_true_iff, N.eqb_eq.
  intros [H | ->]; [now apply unescaped_printable | lia].
Qed.

Lemma hex_digit_unescaped (d : N) : (d < 16)%N -> unescaped (hex_digit d) = true.
Proof.
  intros Hd. unfold hex_digit.
  destruct (N.ltb_spec d 10) as [Hlt | Hge].
  - assert (H : in_range 48 57 (48 + d) = true).
    { unfold in_range. apply andb_true_iff. rewrite !N.leb_le. lia. }
    unfold unescaped. rewrite H.
    destruct (in_range 97 122 _), (in_range 65 90 _); reflexivity.
  - assert (H : in_range 65 90 (55 + d) = true).
    { unfold in_range. apply andb_true_iff. rewrite !N.leb_le. lia. }
    unfold unescaped. rewrite H.
    destruct (in_range 97 122 _); reflexivity.
Qed.

Lemma pct_chars (b : N) : (b < 256)%N -> Forall (fun c => uri_char c = true) (pct b).
Proof.
  intros Hb. unfold pct, uri_char.
  repeat constructor.
  - rewrite hex_digit_unescaped; [reflexivity|].
    apply N.Div0.div_lt_upper_bound. lia.
  - rewrite hex_digit_unescaped; [reflexivity|].
    apply N.mod_lt. lia.
Qed.

Lemma utf8_octets (cp : N) : (cp < 1114112)%N -> Forall (fun b => (b < 256)%N) (utf8 cp).
Proof.
  intros Hcp. unfold utf8.
  assert (Hmod : forall x, (128 + x mod 64 < 256)%N).
  { intros x. pose proof (N.mod_lt x 64 ltac:(lia)). lia. }
  destruct (N.ltb_spec cp 128); [repeat constructor; lia|].
  destruct (N.ltb_spec cp 2048).
  { repeat constructor; [|apply Hmod].
    assert (cp / 64 < 32)%N by (apply N.Div0.div_lt_upper_bound; lia). lia. }
  destruct (N.ltb_spec cp 65536).
  { repeat constructor; try apply Hmod.
    assert (cp / 4096 < 16)%N by (apply N.Div0.div_lt_upper_bound; lia). lia. }
  repeat constructor; try apply Hmod.
  assert (cp / 262144 < 5)%N by (apply N.Div0.div_lt_upper_bound; lia). lia.
Qed.

Lemma escape_chars (cp : N) :
  (cp < 1114112)%N -> Forall (fun c => uri_char c = true) (escape cp).
Proof.
  intros Hcp. unfold escape. apply Forall_flat_map.
  eapply Forall_impl; [|apply utf8_octets; exact Hcp].
  intros b Hb. now apply pct_chars.
Qed.

(** Whatever [encodeURI] returns is made of the characters it leaves
    alone and of [%XX] escapes. *)
Lemma encodeURI_chars (q enc : JsString) :
  Forall (fun c => (c < 65536)%N) q ->
  encodeURI q = Normal enc ->
  Forall (fun c => uri_char c = true) enc.
Proof.
  remember (List.length q) as n eqn:Hn.
  assert (Hle : List.length q <= n) by lia. clear Hn.
  revert q enc Hle. induction n as [|n IH]; intros [|c rest] enc Hle Hunits Henc;
    cbn [List.length] in Hle; try lia;
    try (injection Henc as <-; constructor).
  cbn [encodeURI] in Henc.
  apply Forall_cons_iff in Hunits as [Hc Hrest].
  destruct (unescaped c) eqn:Hu.
  - destruct (encodeURI rest) as [enc'|] eqn:E; [|discriminate].
    injection Henc as <-. cbn [app]. constructor.
    + unfold uri_char. now rewrite Hu.
    + apply (IH rest); [lia | assumption | assumption].
  - destruct (is_leading_surrogate c) eqn:Hlead.
    + destruct rest as [|d rest']; [discriminate|].
      destruct (is_trailing_surrogate d) eqn:Htrail; [|discriminate].
      destruct (encodeURI rest') as [enc'|] eqn:E; [|discriminate].
      injection Henc as <-. apply Forall_app. split.
      * apply escape_chars.
        unfold is_leading_surrogate, is_trailing_surrogate, in_range in *.
        apply andb_true_iff in Hlead as [H1 H2], Htrail as [H3 H4].
        apply N.leb_le in H1, H2, H3, H4. lia.
      * apply Forall_cons_iff in Hrest as [_ Hrest'].
        cbn [List.length] in Hle. apply (IH rest'); [lia | assumption | assumption].
    + destruct (is_trailing_surrogate c); [discriminate|].
      destruct (encodeURI rest) as [enc'|] eqn:E; [|discriminate].
      injection Henc as <-. apply Forall_app. split.
      * apply escape_chars. lia.
      * apply (IH rest); [lia | assumption | assumption].
Qed.

Lemma encodeURI_verbatim (q : JsString) :
  Forall (fun c => unescaped c = true) q -> encodeURI q = Normal q.
Proof.
  induction 1 as [|c q Hc _ IH]; cbn [encodeURI]; [reflexivity|].
  now rewrite Hc, IH.
Qed.

(** X13. The URL of a search request is plain printable ASCII: for a
    non-empty query of 16-bit code units in which every surrogate is
    paired, every character of the requested URL is one that [encodeURI]
    leaves alone or part of a [%XX] escape, so there is no space, no
    control character and nothing beyond ASCII in it. *)
Theorem fetchMovies_search_url_is_ascii (env : Env) (q : JsString) (w : World) :
  q <> [] ->
  well_formed q = true ->
  Forall (fun c => (c < 65536)%N) q ->
  exists url,
    requests (snd (fetchMovies env (Some q) w)) = requests w ++ [url]
    /\ Forall (fun c => uri_char c = true) url
    /\ Forall (fun c => (32 < c < 127)%N) url.
Proof.
  intros Hq Hwf Hunits.
  destruct (fetchMovies_always env (Some q) w) as (_ & _ & Hreq).
  cbn [query_of] in Hreq. unfold endpoint_of in Hreq.
  apply truthy_iff in Hq. rewrite Hq in Hreq.
  destruct (encodeURI_cases q) as [[_ [enc Henc]] | [Hbad _]]; [|congruence].
  rewrite Henc in Hreq. cbn [cons_to] in Hreq.
  exists (search_prefix ++ enc). split; [exact Hreq|].
  assert (Hchars : Forall (fun c => uri_char c = true) (search_prefix ++ enc)).
  { apply Forall_app. split.
    - vm_compute. repeat constructor.
    - exact (encodeURI_chars Hunits Henc). }
  split; [exact Hchars|].
  eapply Forall_impl; [|exact Hchars]. apply uri_char_printable.
Qed.

Lemma fetchMovies_search_url_is_ascii_witness :
  exists url,
    requests (snd (fetchMovies quiet (Some [233%N; 32%N; 55357%N; 56832%N]) the_world))
    = [url]
    /\ Forall (fun c => (32 < c < 127)%N) url.
Proof.
  destruct (@fetchMovies_search_url_is_ascii quiet [233%N; 32%N; 55357%N; 56832%N]
              the_world ltac:(discriminate) eq_refl
              ltac:(repeat constructor))
    as (url & Hreq & _ & Hascii).
  exists url. split; [exact Hreq | exact Hascii].
Defined.

(** X14. [encodeURI] is not [encodeURIComponent]: a non-empty query made
    only of letters, digits, the marks [-_.!~*'()] and the reserved
    characters [;/?:@&=+$,#] goes into the URL as it is, so an [&], [=],
    [+] or [#] typed by the user reaches the service unescaped, as URL
    syntax. *)
Theorem fetchMovies_reserved_characters_verbatim (env : Env) (q : JsString) (w : World) :
  q <> [] ->
  Forall (fun c => unescaped c = true) q ->
  requests (snd (fetchMovies env (Some q) w))
  = requests w ++ [js "https://api.themoviedb.org/3/search/movie?query=" ++ q]
  /\ Forall (fun c => unescaped c = true) (js "&=+#?/").
Proof.
  intros Hq Hplain.
  destruct (fetchMovies_always env (Some q) w) as (_ & _ & Hreq).
  cbn [query_of] in Hreq. unfold endpoint_of in Hreq.
  apply truthy_iff in Hq. rewrite Hq, (encodeURI_verbatim Hplain) in Hreq.
  split; [exact Hreq|]. vm_compute. repeat constructor.
Qed.

Lemma fetchMovies_reserved_characters_verbatim_witness :
  requests (snd (fetchMovies quiet (Some (js "tom&jerry=1#top")) the_world))
  = [js "https://api.themoviedb.org/3/search/movie?query=tom&jerry=1#top"].
Proof.
  apply (@fetchMovies_reserved_characters_verbatim quiet (js "tom&jerry=1#top") the_world).
  - discriminate.
  - vm_compute. repeat constructor.
Defined.

(** ** The [all-movies] section *)

(** X15. After a run of [fetchMovies] the [all-movies] section never
    shows the spinner, whatever was shown before: it shows the error
    message when one was set and the list otherwise. After a request that
    was rejected, answered with a bad status or with a body that is not
    JSON it shows [Error fetching movies. Please try again later.], and
    the list it kept is not on the page. *)
Theorem all_movies_section_after_fetch (env : Env) (arg : option JsString) (w : World) :
  let w' := snd (fetchMovies env arg w) in
  all_movies_section w' <> Spinner
  /\ (errorMessage w' = [] -> all_movies_section w' = MovieCards (moviesList w'))
  /\ (errorMessage w' <> [] -> all_movies_section w' = ErrorText (errorMessage w'))
  /\ ((forall url, endpoint_of (query_of arg) = Normal url ->
                   fetch_fails (transport env (clock w) url) = true) ->
      all_movies_section w'
      = ErrorText (js "Error fetching movies. Please try again later.")
      /\ moviesList w' = moviesList w).
Proof.
  intros w'.
  destruct (fetchMovies_always env arg w) as (_ & Hload & _). fold w' in Hload.
  unfold all_movies_section. rewrite Hload.
  split; [|split; [|split]].
  - destruct (truthy (errorMessage w')); discriminate.
  - now intros ->.
  - intros Hmsg. apply truthy_iff in Hmsg. now rewrite Hmsg.
  - intros Hfail. subst w'.
    destruct (endpoint_of (query_of arg)) as [url|e] eqn:Hend.
    + rewrite (fetchMovies_request_fails env arg w Hend (Hfail url eq_refl)).
      split; reflexivity.
    + rewrite (fetchMovies_no_endpoint env arg w Hend). split; reflexivity.
Qed.

Lemma all_movies_section_after_fetch_witness :
  all_movies_section (snd (fetchMovies quiet (Some (js "dune")) (showing [dune])))
  = ErrorText (js "Error fetching movies. Please try again later.")
  /\ moviesList (snd (fetchMovies quiet (Some (js "dune")) (showing [dune]))) = [dune].
Proof.
  apply (proj2 (proj2 (proj2
           (all_movies_section_after_fetch quiet (Some (js "dune")) (showing [dune]))))).
  intros url _. reflexivity.
Defined.

(** ** No retries *)

Lemma updateSearchCount_clock (env : Env) (term : JsString) (movie : Movie) (w : World) :
  clock (snd (updateSearchCount env term movie w))
  = match store_fault env (clock w) with
    | Some _ => S (clock w)
    | None => S (S (clock w))
    end.
Proof.
  unfold updateSearchCount, try_catch, bind, listDocuments, request.
  destruct (store_fault env (clock w)) as [e|]; [reflexivity|].
  rewrite select_by_term.
  destruct (records_for term (collection w)) as [|d rest].
  - unfold default_limit, ID_unique, createDocument, request.
    cbn [firstn clock collection].
    destruct (store_fault env (S (clock w))); [reflexivity|].
    unfold create. destruct (existsb _ _); reflexivity.
  - unfold default_limit, updateDocument, request.
    cbn [firstn clock collection].
    destruct (store_fault env (S (clock w))); [reflexivity|].
    unfold update. destruct (find _ _); reflexivity.
Qed.

(** X16. [updateSearchCount] never retries: it sends one request to the
    store when the lookup fails and two otherwise, the lookup and one
    write, whether or not the write succeeds; it sends no HTTP request. *)
Theorem updateSearchCount_sends_at_most_two
        (env : Env) (term : JsString) (movie : Movie) (w : World) :
  let w' := snd (updateSearchCount env term movie w) in
  (store_fault env (clock w) <> None -> clock w' = 1 + clock w)
  /\ (store_fault env (clock w) = None -> clock w' = 2 + clock w)
  /\ requests w' = requests w.
Proof.
  intros w'. subst w'. rewrite updateSearchCount_clock.
  destruct (store_fault env (clock w)) as [e|].
  - repeat split; [intros; discriminate | apply updateSearchCount_shown].
  - repeat split; [intros H; now elim H | apply updateSearchCount_shown].
Qed.

Lemma updateSearchCount_sends_at_most_two_witness :
  clock (snd (updateSearchCount store_down (js "dune") dune the_world)) = 1
  /\ clock (snd (updateSearchCount quiet (js "dune") dune the_world)) = 2.
Proof.
  split.
  - apply (proj1 (updateSearchCount_sends_at_most_two store_down (js "dune") dune the_world)).
    discriminate.
  - apply (proj1 (proj2 (updateSearchCount_sends_at_most_two quiet (js "dune") dune
                           the_world))).
    reflexivity.
Defined.

(** X17. [fetchMovies] never retries either: a run makes at most one HTTP
    request, none when the endpoint cannot be built, and at most two
    requests to the store after it. *)
Theorem fetchMovies_sends_at_most_three (env : Env) (arg : option JsString) (w : World) :
  let w' := snd (fetchMovies env arg w) in
  List.length (requests w') <= 1 + List.length (requests w)
  /\ clock w <= clock w' <= 3 + clock w
  /\ (forall e, endpoint_of (query_of arg) = Throw e ->
                requests w' = requests w /\ clock w' = clock w)
  /\ (query_of arg = [] -> clock w' = 1 + clock w).
Proof.
  intros w'. subst w'.
  destruct (endpoint_of (query_of arg)) as [url|e] eqn:Hend.
  2: { rewrite (fetchMovies_no_endpoint env arg w Hend). cbn [snd requests clock].
       repeat split; try lia.
       intros Hq. rewrite Hq in Hend. discriminate. }
  assert (Hno : forall e, Normal url = Throw e ->
                          requests (snd (fetchMovies env arg w)) = requests w
                          /\ clock (snd (fetchMovies env arg w)) = clock w)
    by (intros; discriminate).
  destruct (fetch_fails (transport env (clock w) url)) eqn:Hfail.
  { rewrite (fetchMovies_request_fails env arg w Hend Hfail) in *.
    cbn [snd requests clock]. rewrite length_app. cbn [List.length].
    repeat split; try lia; try discriminate. }
  destruct (transport env (clock w) url) as [e | [[|] [e | d]]] eqn:Hreply;
    cbn in Hfail; try discriminate.
  destruct (strict_equal (TMDB.response d) (js "False")) eqn:Hflag.
  { rewrite (fetchMovies_flagged env arg w Hend Hreply Hflag) in *.
    cbn [snd requests clock]. rewrite length_app. cbn [List.length].
    repeat split; try lia; try discriminate. }
  rewrite (fetchMovies_listed env arg w Hend Hreply Hflag) in *.
  destruct (results d) as [[|first rest]|];
    destruct (truthy (query_of arg)) eqn:Hq;
    cbn [snd requests clock listed]; rewrite ?length_app; cbn [List.length];
    try (repeat split; try lia; try discriminate;
         intros Hnil; rewrite Hnil in Hq; discriminate).
  pose proof (updateSearchCount_clock env (query_of arg) first
                (listed w url (first :: rest))) as Hclock.
  destruct (updateSearchCount_shown env (query_of arg) first
              (listed w url (first :: rest))) as (_ & _ & _ & Hreq).
  rewrite Hreq, Hclock. cbn [listed requests clock].
  rewrite length_app. cbn [List.length].
  destruct (store_fault env (S (clock w)));
    (repeat split; try lia; try discriminate;
     intros Hnil; rewrite Hnil in Hq; discriminate).
Qed.

Lemma fetchMovies_sends_at_most_three_witness :
  requests (snd (fetchMovies quiet (Some [55296%N]) the_world)) = []
  /\ clock (snd (fetchMovies quiet (Some [55296%N]) the_world)) = 0
  /\ clock (snd (fetchMovies quiet None the_world)) = 1.
Proof.
  destruct (fetchMovies_sends_at_most_three quiet (Some [55296%N]) the_world)
    as (_ & _ & Hnone & _).
  destruct (Hnone URIError eq_refl) as [Hreq Hclock].
  split; [exact Hreq | split; [exact Hclock|]].
  exact (proj2 (proj2 (proj2 (fetchMovies_sends_at_most_three quiet None the_world)))
           eq_refl).
Defined.

(** ** The percent-encoding of the spec *)

Lemma hex_digit_unreserved (d : N) : (d < 16)%N -> unreserved (hex_digit d) = true.
Proof.
  intros Hd. unfold hex_digit.
  destruct (N.ltb_spec d 10) as [Hlt | Hge].
  - assert (H : in_range 48 57 (48 + d) = true).
    { unfold in_range. apply andb_true_iff. rewrite !N.leb_le. lia. }
    unfold unreserved. rewrite H.
    destruct (in_range 97 122 _), (in_range 65 90 _); reflexivity.
  - assert (H : in_range 65 90 (55 + d) = true).
    { unfold in_range. apply andb_true_iff. rewrite !N.leb_le. lia. }
    unfold unreserved. rewrite H.
    destruct (in_range 97 122 _); reflexivity.
Qed.

Lemma escape_plain (cp : N) :
  (cp < 1114112)%N -> Forall (fun c => unreserved c = true \/ c = 37%N) (escape cp).
Proof.
  intros Hcp. unfold escape. apply Forall_flat_map.
  eapply Forall_impl; [|apply utf8_octets; exact Hcp].
  intros b Hb. cbv beta in Hb. unfold pct.
  constructor; [now right|].
  constructor.
  { left. apply hex_digit_unreserved. apply N.Div0.div_lt_upper_bound. lia. }
  constructor; [|constructor].
  left. apply hex_digit_unreserved. apply N.mod_lt. lia.
Qed.

Lemma unreserved_not_reserved (c : N) : unreserved c = true -> reserved c = false.
Proof.
  intros Hu. destruct (reserved c) eqn:Hr; [|reflexivity].
  unfold reserved in Hr. apply orb_true_iff in Hr as [Hr | Hr].
  - unfold mem in Hr. apply existsb_exists in Hr as (x & Hin & Hx).
    apply N.eqb_eq in Hx. subst x. vm_compute in Hin.
    repeat (destruct Hin as [<- | Hin]; [vm_compute in Hu; discriminate|]).
    destruct Hin.
  - apply N.eqb_eq in Hr. subst c. vm_compute in Hu. discriminate.
Qed.

(** The percent-encoded text of a string of 16-bit code units is made of
    unreserved characters and [%XX] escapes: none of [;/?:@&=+$,#] is left
    in it. *)
Lemma percent_encoded_has_no_reserved (q : JsString) :
  Forall (fun c => (c < 65536)%N) q ->
  Forall (fun c => reserved c = false) (percent_encoded q).
Proof.
  intros Hunits.
  assert (Hplain : Forall (fun c => unreserved c = true \/ c = 37%N) (percent_encoded q)).
  { remember (List.length q) as n eqn:Hn.
    assert (Hle : List.length q <= n) by lia. clear Hn.
    revert q Hle Hunits. induction n as [|n IH]; intros [|c rest] Hle Hunits;
      cbn [List.length] in Hle; try lia; try constructor.
    apply Forall_cons_iff in Hunits as [Hc Hrest].
    cbn [percent_encoded].
    destruct (unreserved c) eqn:Hu.
    - constructor; [now left | apply IH; [lia | assumption]].
    - destruct (is_leading_surrogate c) eqn:Hlead.
      + destruct rest as [|d rest']; [apply escape_plain; lia|].
        destruct (is_trailing_surrogate d) eqn:Htrail.
        * apply Forall_app. split.
          -- apply escape_plain.
             unfold is_leading_surrogate, is_trailing_surrogate, in_range in *.
             apply andb_true_iff in Hlead as [H1 H2], Htrail as [H3 H4].
             apply N.leb_le in H1, H2, H3, H4. lia.
          -- apply Forall_cons_iff in Hrest as [_ Hrest'].
             cbn [List.length] in Hle. apply IH; [lia | assumption].
        * apply Forall_app. split; [apply escape_plain; lia|].
          apply IH; [lia | assumption].
      + apply Forall_app. split; [apply escape_plain; lia|].
        apply IH; [lia | assumption]. }
  eapply Forall_impl; [|exact Hplain].
  intros c [Hc | ->]; [now apply unreserved_not_reserved | reflexivity].
Qed.
